(* ===================================================================== *)
(* BaiduPCS-Py: the account registry of baidupcs_py/app/account.py        *)
(*                                                                         *)
(* A shallow embedding of `Account`, `AccountManager`, `load_data`,        *)
(* `save` and the v0.5.9 compatibility pass, together with the theorems    *)
(* that relate the code to its specification.                              *)
(* ===================================================================== *)

From Stdlib Require Import ZArith Ascii String.
From stdpp Require Import gmap strings list fin_maps pretty.

Local Open Scope Z_scope.
Local Open Scope string_scope.

(* --------------------------------------------------------------------- *)
(* 1. External records: PcsAuth, PcsUser, BaiduPCSApi                      *)
(* --------------------------------------------------------------------- *)

(** Modelled from the spec: `PcsAuth`, the auth material of an Identity
    Record, is declared in baidupcs_py.baidupcs, outside account.py.  Only
    the four fields that `Account.pcsapi` reads are kept. *)
Record PcsAuth := mkPcsAuth {
  bduss : string;
  cookies : list (string * option string);
  stoken : option string;
  ptoken : option string
}.

(** Modelled from the spec: the `products` field of an Identity Record.  The
    legacy shape is "a generic key/value mapping" (a Python dict); the
    current shape is a flat structure. *)
Inductive Products :=
| ProductsDict (kv : list (string * string))
| ProductsFlat (names : list string).

(** Modelled from the spec: `PcsUser`, the Identity Record ("a stable
    numeric identifier and auth material"), is declared in
    baidupcs_py.baidupcs.  The fields account.py reads are `user_id`, `auth`
    and `products`; `user_name` stands for the remaining metadata. *)
Record PcsUser := mkPcsUser {
  user_id : Z;
  user_name : option string;
  auth : option PcsAuth;
  products : option Products
}.

(** `isinstance(old_products, dict)` *)
Definition isinstance_dict (p : option Products) : bool :=
  match p with
  | Some (ProductsDict _) => true
  | _ => false
  end.

(** The handle built by `BaiduPCSApi(bduss=..., stoken=..., ptoken=...,
    cookies=..., user_id=...)`: it records its arguments; no request is made
    until `user_info` is called. *)
Record BaiduPCSApi := mkBaiduPCSApi {
  api_bduss : string;
  api_stoken : option string;
  api_ptoken : option string;
  api_cookies : list (string * option string);
  api_user_id : option Z
}.

(* --------------------------------------------------------------------- *)
(* 2. Account                                                              *)
(* --------------------------------------------------------------------- *)

(** `class Account(NamedTuple)` *)
Record Account := mkAccount {
  user : PcsUser;
  pwd : string;
  encrypt_key : option string;
  salt : option string
}.

(** `Account(user=user)`: the defaults of the NamedTuple. *)
Definition Account_new (u : PcsUser) : Account :=
  {| user := u; pwd := "/"; encrypt_key := None; salt := None |}.

(** `account._replace(encrypt_key=..., salt=...)` *)
Definition replace_encrypt (a : Account) (k s : option string) : Account :=
  {| user := user a; pwd := pwd a; encrypt_key := k; salt := s |}.

(** `account._replace(pwd=...)` *)
Definition replace_pwd (a : Account) (d : string) : Account :=
  {| user := user a; pwd := d; encrypt_key := encrypt_key a; salt := salt a |}.

(** `account._replace(user=...)` *)
Definition replace_user (a : Account) (u : PcsUser) : Account :=
  {| user := u; pwd := pwd a; encrypt_key := encrypt_key a; salt := salt a |}.

(** An account is legacy-shaped when `account.user.products` is a dict. *)
Definition legacy (a : Account) : bool := isinstance_dict (products (user a)).

(* --------------------------------------------------------------------- *)
(* 3. Exceptions and results                                               *)
(* --------------------------------------------------------------------- *)

(** The message of each `assert` of account.py.  The specification names
    them `NoActiveIdentity` ("No recent user" and the bare `assert account`),
    `UnknownIdentity` ("No user {user_id}"), `NoStoragePath`
    ("No data path") and `MissingAuth` ("{self}.user.auth is None"). *)
Inductive AssertMsg :=
| NoRecentUser
| NoAccount
| NoUser (uid : Z)
| NoDataPath
| AuthIsNone (a : Account).

(** Subclasses of Python's `Exception`, the ones `except Exception` catches.
    `KeyboardInterrupt` and `SystemExit` are not `Exception`s and are not
    modelled. *)
Inductive Exception :=
| AssertionError (m : AssertMsg)
| OSError (what : string)
| UnpicklingError (what : string)
| NetworkError (what : string)
| OtherError (what : string).

Inductive Result (A : Type) :=
| Ok (a : A)
| Raise (e : Exception).
Arguments Ok {A} a.
Arguments Raise {A} e.

Definition bindR {A B} (r : Result A) (k : A → Result B) : Result B :=
  match r with
  | Ok a => k a
  | Raise e => Raise e
  end.

Notation "'let?' x := c 'in' k" := (bindR c (λ x, k))
  (at level 10, x pattern, c at level 100, k at level 200, only parsing).

(** `assert cond, msg` *)
Definition assertR (cond : bool) (m : AssertMsg) : Result unit :=
  if cond then Ok tt else Raise (AssertionError m).

(* --------------------------------------------------------------------- *)
(* 4. Python truthiness                                                    *)
(* --------------------------------------------------------------------- *)

(** Truth value of an `Optional[int]`: `None` and `0` are false. *)
Definition truthy_int (o : option Z) : bool :=
  match o with
  | Some n => negb (n =? 0)%Z
  | None => false
  end.

(** `a or b` on `Optional[int]` *)
Definition or_int (a b : option Z) : option Z :=
  if truthy_int a then a else b.

(** Truth value of an `Optional[PathLike]`: `None` and the empty `str` are
    false.  A path is carried as its string; a `pathlib.Path` object never
    has an empty string (`Path("")` is `.`) and is always true. *)
Definition truthy_path (o : option string) : bool :=
  match o with
  | Some "" => false
  | Some _ => true
  | None => false
  end.

(** `a or b` on `Optional[PathLike]` *)
Definition or_path (a b : option string) : option string :=
  if truthy_path a then a else b.

(** Truth value of an `Optional[Account]` or `Optional[PcsAuth]`: a
    NamedTuple with fields is a non-empty tuple, so only `None` is false. *)
Definition truthy_obj {A} (o : option A) : bool :=
  match o with
  | Some _ => true
  | None => false
  end.

(* --------------------------------------------------------------------- *)
(* 5. AccountManager: state and the operations that need no I/O            *)
(* --------------------------------------------------------------------- *)

(** The three attributes set by `AccountManager.__init__`. *)
Record AccountManager := mkAccountManager {
  _accounts : gmap Z Account;
  _who : option Z;
  _data_path : option string
}.

(** `AccountManager(data_path=...)` *)
Definition AccountManager_new (data_path : option string) : AccountManager :=
  {| _accounts := ∅; _who := None; _data_path := data_path |}.

Definition set_accounts (am : AccountManager) (m : gmap Z Account) : AccountManager :=
  {| _accounts := m; _who := _who am; _data_path := _data_path am |}.

Definition set_who (am : AccountManager) (w : option Z) : AccountManager :=
  {| _accounts := _accounts am; _who := w; _data_path := _data_path am |}.

Definition set_data_path (am : AccountManager) (p : option string) : AccountManager :=
  {| _accounts := _accounts am; _who := _who am; _data_path := p |}.

(** `self._accounts.get(key)` with an `Optional[int]` key: `None` is never a
    key of the dict. *)
Definition dict_get (m : gmap Z Account) (key : option Z) : option Account :=
  match key with
  | Some i => m !! i
  | None => None
  end.

(** `self._accounts[key] = account`.  Every call site has checked the key to
    be true beforehand, so the key is an `int` there. *)
Definition dict_set (m : gmap Z Account) (key : option Z) (a : Account)
  : gmap Z Account :=
  match key with
  | Some i => <[i := a]> m
  | None => m
  end.

(** `AccountManager.accounts` *)
Definition accounts (am : AccountManager) : list Account :=
  (map_to_list (_accounts am)).*2.

(** `AccountManager.set_encrypt_key` *)
Definition set_encrypt_key (k s : option string) (am : AccountManager)
  : Result AccountManager :=
  let? _ := assertR (truthy_int (_who am)) NoRecentUser in
  let account := dict_get (_accounts am) (_who am) in
  let? _ := assertR (truthy_obj account) NoAccount in
  match account with
  | Some account =>
      let account := replace_encrypt account k s in
      Ok (set_accounts am (dict_set (_accounts am) (_who am) account))
  | None => Raise (AssertionError NoAccount)
  end.

(** `AccountManager.pwd` *)
Definition AccountManager_pwd (am : AccountManager) : Result string :=
  let? _ := assertR (truthy_int (_who am)) NoRecentUser in
  let account := dict_get (_accounts am) (_who am) in
  let? _ := assertR (truthy_obj account) NoAccount in
  match account with
  | Some account => Ok (pwd account)
  | None => Raise (AssertionError NoAccount)
  end.

(** `AccountManager.who` *)
Definition who (uid : option Z) (am : AccountManager) : option Account :=
  let uid := or_int uid (_who am) in
  if truthy_int uid then dict_get (_accounts am) uid else None.

(** `AccountManager.su` *)
Definition su (uid : Z) (am : AccountManager) : Result AccountManager :=
  let? _ := assertR (bool_decide (is_Some (_accounts am !! uid))) (NoUser uid) in
  Ok (set_who am (Some uid)).

(** `AccountManager.useradd` *)
Definition useradd (u : PcsUser) (am : AccountManager) : AccountManager :=
  set_accounts am (<[user_id u := Account_new u]> (_accounts am)).

(** `AccountManager.userdel` *)
Definition userdel (uid : Z) (am : AccountManager) : AccountManager :=
  let am :=
    if bool_decide (is_Some (_accounts am !! uid))
    then set_accounts am (delete uid (_accounts am))
    else am in
  if bool_decide (Some uid = _who am) then set_who am None else am.

(** `Account.pcsapi` *)
Definition pcsapi (a : Account) : Result BaiduPCSApi :=
  let auth := auth (user a) in
  let? _ := assertR (truthy_obj auth) (AuthIsNone a) in
  match auth with
  | Some auth =>
      Ok {| api_bduss := bduss auth; api_stoken := stoken auth;
            api_ptoken := ptoken auth; api_cookies := cookies auth;
            api_user_id := Some (user_id (user a)) |}
  | None => Raise (AssertionError (AuthIsNone a))
  end.

(** The invariant of the data model: the active identifier, if set, is a
    registered key. *)
Definition active_registered (am : AccountManager) : Prop :=
  ∀ u, _who am = Some u → is_Some (_accounts am !! u).

(** The identifier `update` is asked to refresh: the given one, or else the
    active one. *)
Definition target (uid : option Z) (am : AccountManager) : option Z :=
  match uid with
  | Some i => Some i
  | None => _who am
  end.

(** The session state of every account is kept from `am` to `am'`: the same
    keys are registered, every account has the `pwd`, `encrypt_key` and
    `salt` it had, and the active identifier is the same. *)
Definition session_preserved (am am' : AccountManager) : Prop :=
  _who am' = _who am
  ∧ ∀ k, match _accounts am !! k, _accounts am' !! k with
         | Some a, Some a' =>
             pwd a' = pwd a ∧ encrypt_key a' = encrypt_key a ∧ salt a' = salt a
         | None, None => True
         | _, _ => False
         end.

(** Whether the key `k` holds a legacy-shaped account. *)
Definition legacy_at (am : AccountManager) (k : Z) : bool :=
  match _accounts am !! k with
  | Some a => legacy a
  | None => false
  end.

(** How many of `keys` hold a legacy-shaped account. *)
Fixpoint count_legacy (am : AccountManager) (keys : list Z) : nat :=
  match keys with
  | [] => 0%nat
  | k :: keys => ((if legacy_at am k then 1 else 0) + count_legacy am keys)%nat
  end.

(* --------------------------------------------------------------------- *)
(* 6. The platform: file system, pickle, network client, constants         *)
(* --------------------------------------------------------------------- *)

(** What account.py imports and calls but does not define.  `FS` is the
    state of the file system, `Net` the state of the remote service, `Bytes`
    the content of a file.  Every operation that can fail in Python returns
    a `Result`; the ones that change the file system or the service return
    the new state also when they fail. *)
Class Platform := {
  FS : Type;
  Net : Type;
  Bytes : Type;
  (** `baidupcs_py.commands.env.ACCOUNT_DATA_PATH` *)
  ACCOUNT_DATA_PATH : string;
  (** `baidupcs_py.common.path.join_path` *)
  join_path : string → string → string;
  (** `Path(p).expanduser()` *)
  Path_expanduser : string → Result string;
  (** `path.parent` *)
  Path_parent : string → string;
  (** `Path(p).exists()` *)
  Path_exists : string → FS → bool;
  (** `path.mkdir(parents=True)` *)
  Path_mkdir : string → FS → Result unit * FS;
  (** `path.open("rb")` and reading the whole stream *)
  read_file : string → FS → Result Bytes;
  (** `open(path, "wb")` and writing the whole stream *)
  write_file : string → Bytes → FS → Result unit * FS;
  (** the byte stream `pickle.dump` produces for an `AccountManager` *)
  pickle_dumps : AccountManager → Bytes;
  (** what `pickle.load` rebuilds; a stream that does not hold an
      `AccountManager` makes `load_data` fail before any effect, and is a
      `Raise` here *)
  pickle_loads : Bytes → Result AccountManager;
  (** the request behind `BaiduPCSApi.user_info` *)
  request_user_info : BaiduPCSApi → Net → Result PcsUser * Net
}.

(** What the theorems about `save` followed by `load_data` assume of the
    platform: pickle rebuilds what it dumped, and a file that was written
    without error reads back as written. *)
Class PlatformLaws (P : Platform) := {
  pickle_loads_dumps : ∀ am, pickle_loads (pickle_dumps am) = Ok am;
  read_after_write : ∀ p b fs fs',
    write_file p b fs = (Ok tt, fs') → read_file p fs' = Ok b
}.

Section WithPlatform.
Context {P : Platform}.

(** The world outside the process.  `w_requests` logs every `user_info`
    request (latest first) and `w_console` every line printed (latest
    first). *)
Record World := mkWorld {
  w_fs : FS;
  w_net : Net;
  w_requests : list BaiduPCSApi;
  w_console : list string
}.

(** Computations that may raise and that act on the world.  The world an
    exception leaves behind is kept: what was written stays written. *)
Definition IO (A : Type) : Type := World → Result A * World.

Definition ret {A} (a : A) : IO A := λ w, (Ok a, w).

Definition bind {A B} (c : IO A) (k : A → IO B) : IO B := λ w,
  match c w with
  | (Ok a, w') => k a w'
  | (Raise e, w') => (Raise e, w')
  end.

Definition liftR {A} (r : Result A) : IO A := λ w, (r, w).

(** `try: body  except Exception: handler` *)
Definition try_except {A} (body : IO A) (handler : IO A) : IO A := λ w,
  match body w with
  | (Ok a, w') => (Ok a, w')
  | (Raise _, w') => handler w'
  end.

Notation "'let*' x := c 'in' k" := (bind c (λ x, k))
  (at level 10, x pattern, c at level 100, k at level 200, only parsing).

Definition io_fs : IO FS := λ w, (Ok (w_fs w), w).

Definition io_exists (p : string) : IO bool := λ w,
  (Ok (Path_exists p (w_fs w)), w).

Definition io_mkdir (p : string) : IO unit := λ w,
  let '(r, fs) := Path_mkdir p (w_fs w) in
  (r, {| w_fs := fs; w_net := w_net w;
         w_requests := w_requests w; w_console := w_console w |}).

Definition io_read (p : string) : IO Bytes := λ w,
  (read_file p (w_fs w), w).

Definition io_write (p : string) (b : Bytes) : IO unit := λ w,
  let '(r, fs) := write_file p b (w_fs w) in
  (r, {| w_fs := fs; w_net := w_net w;
         w_requests := w_requests w; w_console := w_console w |}).

(** The world once `msg` has been printed. *)
Definition printed (msg : string) (w : World) : World :=
  {| w_fs := w_fs w; w_net := w_net w;
     w_requests := w_requests w; w_console := msg :: w_console w |}.

(** `print(msg)` *)
Definition print (msg : string) : IO unit := λ w, (Ok tt, printed msg w).

(** The world once the request of `api` has been sent and the service has
    moved to `n`. *)
Definition requested (api : BaiduPCSApi) (n : Net) (w : World) : World :=
  {| w_fs := w_fs w; w_net := n;
     w_requests := api :: w_requests w; w_console := w_console w |}.

(** `api.user_info()` *)
Definition user_info (api : BaiduPCSApi) : IO PcsUser := λ w,
  let '(r, n) := request_user_info api (w_net w) in (r, requested api n w).

(** `Account.from_bduss` *)
Definition from_bduss (bduss : string) (cookies : list (string * option string))
  : IO Account :=
  let api := {| api_bduss := bduss; api_stoken := None; api_ptoken := None;
                api_cookies := cookies; api_user_id := None |} in
  let* user := user_info api in
  ret (Account_new user).

(** `AccountManager.cd` *)
Definition cd (remotedir : string) (am : AccountManager) : Result AccountManager :=
  let? _ := assertR (truthy_int (_who am)) NoRecentUser in
  let account := dict_get (_accounts am) (_who am) in
  let? _ := assertR (truthy_obj account) NoAccount in
  match account with
  | Some account =>
      let pwd := join_path (pwd account) remotedir in
      let account := replace_pwd account pwd in
      Ok (set_accounts am (dict_set (_accounts am) (_who am) account))
  | None => Raise (AssertionError NoAccount)
  end.

(** `AccountManager.update`.  The manager is mutated by the last statement
    only, so a call that raises leaves it as it was. *)
Definition update (uid : option Z) (am : AccountManager) : IO AccountManager :=
  let user_id := or_int uid (_who am) in
  if truthy_int user_id then
    match dict_get (_accounts am) user_id with
    | None => ret am
    | Some account =>
        let* api := liftR (pcsapi account) in
        let* user := user_info api in
        ret (set_accounts am
               (dict_set (_accounts am) user_id (replace_user account user)))
    end
  else ret am.

(** `AccountManager.save` *)
Definition save (data_path : option string) (am : AccountManager) : IO unit :=
  let data_path := or_path data_path (_data_path am) in
  let* _ := liftR (assertR (truthy_path data_path) NoDataPath) in
  match data_path with
  | Some data_path =>
      let* data_path := liftR (Path_expanduser data_path) in
      let* parent_exists := io_exists (Path_parent data_path) in
      let* _ := (if negb parent_exists
                 then io_mkdir (Path_parent data_path) else ret tt) in
      io_write data_path (pickle_dumps am)
  | None => liftR (Raise (AssertionError NoDataPath))
  end.

(** The notice of `_compat_v0_5_9`. *)
Definition update_notice (user_id : Z) : string :=
  "[i yellow]Update[/i yellow]: Transfer PcsUser format for ^v0.5.9: "
  ++ "user_id: " ++ pretty user_id.

(** The `for user_id, account in am._accounts.items()` loop of
    `_compat_v0_5_9`, over the keys still to visit.  `items()` is a live
    view: the account of a key is read when the loop reaches the key.
    `update` never adds or removes a key, so every key is found. *)
Fixpoint compat_loop (keys : list Z) (am : AccountManager) : IO AccountManager :=
  match keys with
  | [] => ret am
  | user_id :: keys =>
      match _accounts am !! user_id with
      | Some account =>
          let old_products := products (user account) in
          let* am := (if isinstance_dict old_products
                      then let* _ := print (update_notice user_id) in
                           update (Some user_id) am
                      else ret am) in
          compat_loop keys am
      | None => compat_loop keys am
      end
  end.

(** The path backfill of `_compat_v0_5_9`:
<<
    data_path = am._data_path
    if not data_path or not Path(data_path).exists():
        am._data_path = ACCOUNT_DATA_PATH
>> *)
Definition backfill (am : AccountManager) (fs : FS) : AccountManager :=
  let data_path := _data_path am in
  if negb (truthy_path data_path)
     || negb (match data_path with
              | Some p => Path_exists p fs
              | None => false
              end)
  then set_data_path am (Some ACCOUNT_DATA_PATH)
  else am.

(** `_compat_v0_5_9`.  The keys are visited in the order of `map_to_list`;
    Python visits them in insertion order. *)
Definition _compat_v0_5_9 (am : AccountManager) : IO AccountManager :=
  let* am := compat_loop (map_to_list (_accounts am)).*1 am in
  let* fs := io_fs in
  let am := backfill am fs in
  let* _ := save None am in
  ret am.

(** `_compat_account_manager` *)
Definition _compat_account_manager (am : AccountManager) : IO AccountManager :=
  _compat_v0_5_9 am.

(** `AccountManager.load_data`.  `data_path` is rebound inside the `try`, so
    the handler sees the expanded path unless `expanduser` itself raised. *)
Definition load_data (data_path : string) : IO AccountManager :=
  match Path_expanduser data_path with
  | Raise _ => ret (AccountManager_new (Some data_path))
  | Ok data_path =>
      try_except
        (let* bytes := io_read data_path in
         let* am := liftR (pickle_loads bytes) in
         let* am := _compat_account_manager am in
         ret am)
        (ret (AccountManager_new (Some data_path)))
  end.

End WithPlatform.

(* --------------------------------------------------------------------- *)
(* 7. A simulated platform, to run the code on concrete inputs             *)
(* --------------------------------------------------------------------- *)

Module Sim.

(** A file holds either the pickle of an `AccountManager` or other bytes. *)
Inductive Blob :=
| Pickled (am : AccountManager)
| Garbage (raw : string).

Inductive Node :=
| File (b : Blob)
| Dir.

(** Everything before the last `/` of a path, if it has one. *)
Fixpoint before_last_slash (s : string) : option string :=
  match s with
  | "" => None
  | String c r =>
      match before_last_slash r with
      | Some d => Some (String c d)
      | None => if bool_decide (c = "/"%char) then Some "" else None
      end
  end.

Definition parent (p : string) : string :=
  match before_last_slash p with
  | Some "" => "/"
  | Some d => d
  | None => "."
  end.

(** `~` stands for `/home/user`. *)
Definition expanduser (p : string) : Result string :=
  match p with
  | String "~" rest => Ok ("/home/user" ++ rest)
  | _ => Ok p
  end.

Definition exists_ (p : string) (fs : gmap string Node) : bool :=
  bool_decide (is_Some (fs !! p)).

Definition mkdir (p : string) (fs : gmap string Node)
  : Result unit * gmap string Node :=
  match fs !! p with
  | Some _ => (Raise (OSError "FileExistsError"), fs)
  | None => (Ok tt, <[p := Dir]> fs)
  end.

Definition read (p : string) (fs : gmap string Node) : Result Blob :=
  match fs !! p with
  | Some (File b) => Ok b
  | Some Dir => Raise (OSError "IsADirectoryError")
  | None => Raise (OSError "FileNotFoundError")
  end.

Definition write (p : string) (b : Blob) (fs : gmap string Node)
  : Result unit * gmap string Node :=
  match fs !! p with
  | Some Dir => (Raise (OSError "IsADirectoryError"), fs)
  | _ =>
      match fs !! parent p with
      | Some Dir => (Ok tt, <[p := File b]> fs)
      | Some (File _) => (Raise (OSError "NotADirectoryError"), fs)
      | None => (Raise (OSError "FileNotFoundError"), fs)
      end
  end.

Definition loads (b : Blob) : Result AccountManager :=
  match b with
  | Pickled am => Ok am
  | Garbage _ => Raise (UnpicklingError "invalid load key")
  end.

(** A path that starts with `/` replaces the base, any other is appended. *)
Definition join (base rel : string) : string :=
  match rel with
  | String "/" _ => rel
  | _ => if bool_decide (base = "/") then "/" ++ rel else base ++ "/" ++ rel
  end.

(** The service is either reachable (`true`) or not.  When reachable it
    answers with a current-shaped record for the identifier of the handle
    and echoes the handle's credentials. *)
Definition request (api : BaiduPCSApi) (reachable : bool)
  : Result PcsUser * bool :=
  if reachable then
    (Ok {| user_id := default 1 (api_user_id api);
           user_name := Some "fetched";
           auth := Some {| bduss := api_bduss api; cookies := api_cookies api;
                           stoken := api_stoken api; ptoken := api_ptoken api |};
           products := Some (ProductsFlat ["svip"]) |}, reachable)
  else (Raise (NetworkError "ConnectionError"), reachable).

Definition platform : Platform := {|
  FS := gmap string Node;
  Net := bool;
  Bytes := Blob;
  ACCOUNT_DATA_PATH := "/home/user/.baidupcs-py/accounts.pk";
  join_path := join;
  Path_expanduser := expanduser;
  Path_parent := parent;
  Path_exists := exists_;
  Path_mkdir := mkdir;
  read_file := read;
  write_file := write;
  pickle_dumps := Pickled;
  pickle_loads := loads;
  request_user_info := request
|}.

(** Sample data. *)
Definition an_auth : PcsAuth :=
  {| bduss := "BDUSS"; cookies := []; stoken := None; ptoken := None |}.

Definition current_user (uid : Z) : PcsUser :=
  {| user_id := uid; user_name := Some "stored"; auth := Some an_auth;
     products := Some (ProductsFlat ["vip"]) |}.

Definition legacy_user (uid : Z) : PcsUser :=
  {| user_id := uid; user_name := Some "stored"; auth := Some an_auth;
     products := Some (ProductsDict [("vip", "2020")]) |}.

Definition anonymous_user (uid : Z) : PcsUser :=
  {| user_id := uid; user_name := None; auth := None; products := None |}.

Definition an_account (u : PcsUser) : Account :=
  {| user := u; pwd := "/a/b"; encrypt_key := Some "key"; salt := Some "salt" |}.

(** Two registered accounts, one of them under the identifier 0. *)
Definition with_zero (active : option Z) : AccountManager :=
  {| _accounts := {[ 0 := an_account (current_user 0);
                     5 := Account_new (current_user 5) ]};
     _who := active;
     _data_path := Some "/data/accounts.pk" |}.

(** One registered account under a non-zero identifier. *)
Definition single (u : PcsUser) (active : option Z) (path : option string)
  : AccountManager :=
  {| _accounts := {[ user_id u := an_account u ]};
     _who := active;
     _data_path := path |}.

Definition empty_disk : gmap string Node :=
  {[ "/" := Dir; "/data" := Dir ]}.

(** A disk whose accounts file holds the pickle of `am`. *)
Definition disk_with (am : AccountManager) : gmap string Node :=
  <[ "/data/accounts.pk" := File (Pickled am) ]> empty_disk.

(** A disk whose accounts file is not a pickle. *)
Definition garbage_disk : gmap string Node :=
  <[ "/data/accounts.pk" := File (Garbage "not a pickle") ]> empty_disk.

(** A manager with one legacy-shaped account, stored at its own path. *)
Definition legacy_manager : AccountManager :=
  single (legacy_user 7) (Some 7) (Some "/data/accounts.pk").

Definition world (fs : gmap string Node) (reachable : bool) : @World platform :=
  @mkWorld platform fs reachable [] [].

(** The record the simulated service answers with for the identifier
    `uid`, and the handle `pcsapi` builds for a sample account. *)
Definition fetched_user (uid : Z) : PcsUser :=
  {| user_id := uid; user_name := Some "fetched"; auth := Some an_auth;
     products := Some (ProductsFlat ["svip"]) |}.

Definition handle (uid : Z) : BaiduPCSApi :=
  {| api_bduss := "BDUSS"; api_stoken := None; api_ptoken := None;
     api_cookies := []; api_user_id := Some uid |}.

(** `legacy_manager` once its account has been refreshed. *)
Definition refreshed_manager : AccountManager :=
  set_accounts legacy_manager
    {[ 7 := replace_user (an_account (legacy_user 7)) (fetched_user 7) ]}.

(** Three accounts, two of them legacy-shaped. *)
Definition two_legacy : AccountManager :=
  {| _accounts := {[ 5 := an_account (current_user 5);
                     7 := an_account (legacy_user 7);
                     9 := Account_new (legacy_user 9) ]};
     _who := Some 5;
     _data_path := Some "/data/accounts.pk" |}.

End Sim.

(* ===================================================================== *)
(* 8. Theorems                                                             *)
(* ===================================================================== *)

(* --------------------------------------------------------------------- *)
(* 8.1 Truthiness                                                          *)
(* --------------------------------------------------------------------- *)

Lemma truthy_int_nonzero n : n ≠ 0 → truthy_int (Some n) = true.
Proof.
  intros Hn. unfold truthy_int.
  destruct (Z.eqb_spec n 0) as [->|_]; [done | reflexivity].
Qed.

Lemma truthy_int_true o :
  truthy_int o = true → ∃ n, o = Some n ∧ n ≠ 0.
Proof.
  destruct o as [n|]; simpl; [|discriminate].
  destruct (Z.eqb_spec n 0) as [->|Hn]; [discriminate | eauto].
Qed.

Lemma or_int_given n o : n ≠ 0 → or_int (Some n) o = Some n.
Proof. intros Hn. unfold or_int. by rewrite truthy_int_nonzero. Qed.

Lemma or_int_omitted o : or_int None o = o.
Proof. reflexivity. Qed.

Lemma truthy_path_true o :
  truthy_path o = true → ∃ p, o = Some p ∧ p ≠ "".
Proof.
  destruct o as [[|c p]|]; simpl; try discriminate.
  intros _. eexists. split; [reflexivity | discriminate].
Qed.

(* --------------------------------------------------------------------- *)
(* 8.2 who, useradd, userdel                                               *)
(* --------------------------------------------------------------------- *)

(** `who(user_id)` for a non-zero identifier is the lookup of that key. *)
Lemma who_given_nonzero uid am :
  uid ≠ 0 → who (Some uid) am = _accounts am !! uid.
Proof.
  intros Hn. unfold who. rewrite or_int_given by done.
  by rewrite truthy_int_nonzero.
Qed.

(** `who()` with a non-zero active identifier is the lookup of that key, and
    is `None` when no identifier is active. *)
Lemma who_omitted_nonzero u am :
  _who am = Some u → u ≠ 0 → who None am = _accounts am !! u.
Proof.
  intros Hw Hn. unfold who. rewrite or_int_omitted, Hw.
  by rewrite truthy_int_nonzero.
Qed.

Lemma who_omitted_unset am : _who am = None → who None am = None.
Proof. intros Hw. unfold who. by rewrite or_int_omitted, Hw. Qed.

(** C9, at the identifier 0: with accounts registered under 0 and 5 and 5
    active, `who(0)` returns the account of 5, not the one registered under
    0; and when 0 is the active identifier, `who()` returns nothing although
    0 is registered.  `user_id or self._who` takes 0 for an omitted
    argument. *)
Theorem who_zero_is_taken_for_omitted :
  who (Some 0) (Sim.with_zero (Some 5))
    = _accounts (Sim.with_zero (Some 5)) !! 5
  ∧ who (Some 0) (Sim.with_zero (Some 5))
    ≠ _accounts (Sim.with_zero (Some 5)) !! 0
  ∧ is_Some (_accounts (Sim.with_zero (Some 0)) !! 0)
  ∧ who None (Sim.with_zero (Some 0)) = None.
Proof.
  split; [reflexivity|]. split; [by vm_compute|].
  split; [by eexists | reflexivity].
Qed.

(** C10: `useradd` leaves the active identifier as it was, and after the
    first `useradd` on a new manager `who()` still returns nothing. *)
Theorem useradd_keeps_active :
  (∀ u am, _who (useradd u am) = _who am)
  ∧ (∀ u data_path, who None (useradd u (AccountManager_new data_path)) = None).
Proof. split; reflexivity. Qed.

(** After `useradd`, the new account is registered under its identifier
    with the default session fields, and the other keys are untouched. *)
Lemma useradd_lookup u am j :
  _accounts (useradd u am) !! j
  = if decide (user_id u = j) then Some (Account_new u) else _accounts am !! j.
Proof. unfold useradd. simpl. apply lookup_insert. Qed.

Lemma userdel_accounts uid am :
  _accounts (userdel uid am) = delete uid (_accounts am).
Proof.
  unfold userdel; cbv zeta.
  destruct (bool_decide (is_Some (_accounts am !! uid))) eqn:Hin.
  - by destruct (bool_decide (Some uid = _)).
  - apply bool_decide_eq_false in Hin.
    rewrite delete_id by (by apply eq_None_not_Some).
    by destruct (bool_decide (Some uid = _)).
Qed.

Lemma userdel_who uid am :
  _who (userdel uid am) = if decide (_who am = Some uid) then None else _who am.
Proof.
  unfold userdel; cbv zeta.
  destruct (bool_decide (is_Some (_accounts am !! uid)));
    simpl; case_bool_decide; case_decide; simpl; congruence.
Qed.

Lemma userdel_data_path uid am :
  _data_path (userdel uid am) = _data_path am.
Proof.
  unfold userdel; cbv zeta.
  destruct (bool_decide (is_Some (_accounts am !! uid)));
    simpl; by case_bool_decide.
Qed.

(** C8: after `userdel` of the active identifier `who()` returns nothing;
    after `userdel` of a registered identifier that is not the active one,
    its entry is gone, every other entry is as before and the active
    identifier is unchanged. *)
Theorem userdel_active_and_other uid am :
  (_who am = Some uid → who None (userdel uid am) = None)
  ∧ (is_Some (_accounts am !! uid) → _who am ≠ Some uid →
       _accounts (userdel uid am) !! uid = None
       ∧ (∀ j, j ≠ uid → _accounts (userdel uid am) !! j = _accounts am !! j)
       ∧ _who (userdel uid am) = _who am).
Proof.
  split.
  - intros Hw. apply who_omitted_unset.
    rewrite userdel_who. by case_decide.
  - intros _ Hne. rewrite userdel_accounts, userdel_who.
    split; [apply lookup_delete_eq|].
    split; [intros j Hj; by apply lookup_delete_ne|].
    by case_decide.
Qed.

Lemma userdel_active_and_other_witness :
  who None (userdel 5 (Sim.with_zero (Some 5))) = None
  ∧ _accounts (userdel 0 (Sim.with_zero (Some 5))) !! 0 = None
  ∧ _who (userdel 0 (Sim.with_zero (Some 5))) = Some 5.
Proof.
  destruct (userdel_active_and_other 5 (Sim.with_zero (Some 5))) as [H1 _].
  destruct (userdel_active_and_other 0 (Sim.with_zero (Some 5))) as [_ H2].
  split; [apply H1; reflexivity|].
  destruct H2 as (Hgone & _ & Hwho).
  - by eexists.
  - discriminate.
  - split; [exact Hgone | exact Hwho].
Defined.

(* --------------------------------------------------------------------- *)
(* 8.3 set_encrypt_key, cd, su                                             *)
(* --------------------------------------------------------------------- *)

(** With a non-zero active identifier that is registered, `set_encrypt_key`
    stores the account with `encrypt_key` and `salt` replaced. *)
Lemma set_encrypt_key_nonzero k s am u a :
  _who am = Some u → u ≠ 0 → _accounts am !! u = Some a →
  set_encrypt_key k s am
  = Ok (set_accounts am (<[u := replace_encrypt a k s]> (_accounts am))).
Proof.
  intros Hw Hn Ha. unfold set_encrypt_key.
  rewrite Hw, truthy_int_nonzero by done. simpl. by rewrite Ha.
Qed.

(** Whenever `set_encrypt_key` returns, that is what it did. *)
Lemma set_encrypt_key_Ok k s am am' :
  set_encrypt_key k s am = Ok am' →
  ∃ u a, _who am = Some u ∧ u ≠ 0 ∧ _accounts am !! u = Some a
         ∧ am' = set_accounts am (<[u := replace_encrypt a k s]> (_accounts am)).
Proof.
  unfold set_encrypt_key. intros H.
  destruct (truthy_int (_who am)) eqn:Ht; [|discriminate].
  apply truthy_int_true in Ht as (u & Hw & Hn). rewrite Hw in H. simpl in H.
  destruct (_accounts am !! u) as [a|] eqn:Ha; [|discriminate].
  simpl in H. injection H as <-. eauto 6.
Qed.

(** The frame of a successful `set_encrypt_key`: only `encrypt_key` and
    `salt` of the active account change. *)
Lemma set_encrypt_key_frame k s am am' :
  set_encrypt_key k s am = Ok am' →
  ∃ u a, _who am = Some u ∧ _accounts am !! u = Some a
    ∧ _accounts am' !! u
      = Some {| user := user a; pwd := pwd a; encrypt_key := k; salt := s |}
    ∧ (∀ j, j ≠ u → _accounts am' !! j = _accounts am !! j)
    ∧ dom (_accounts am') = dom (_accounts am)
    ∧ _who am' = _who am ∧ _data_path am' = _data_path am.
Proof.
  intros (u & a & Hw & _ & Ha & ->)%set_encrypt_key_Ok.
  exists u, a. simpl. split_and!; try done.
  - apply lookup_insert_eq.
  - intros j Hj. by apply lookup_insert_ne.
  - apply dom_insert_lookup_L. by eexists.
Qed.

(** C5, at the identifier 0: with 0 registered and active,
    `set_encrypt_key` raises "No recent user" and replaces nothing.
    `assert self._who` takes the identifier 0 for no identifier. *)
Theorem set_encrypt_key_zero_active_raises :
  _who (Sim.with_zero (Some 0)) = Some 0
  ∧ is_Some (_accounts (Sim.with_zero (Some 0)) !! 0)
  ∧ set_encrypt_key (Some "k") (Some "s") (Sim.with_zero (Some 0))
    = Raise (AssertionError NoRecentUser).
Proof. split; [reflexivity|]. split; [by eexists | reflexivity]. Qed.

Lemma su_Ok uid am am' :
  su uid am = Ok am' → is_Some (_accounts am !! uid) ∧ am' = set_who am (Some uid).
Proof.
  unfold su. case_bool_decide; simpl; [|discriminate].
  intros [= <-]. done.
Qed.

Lemma su_unregistered uid am :
  _accounts am !! uid = None → su uid am = Raise (AssertionError (NoUser uid)).
Proof.
  intros Hn. unfold su. rewrite bool_decide_eq_false_2; [done|].
  rewrite Hn. by intros [? ?].
Qed.

Section Registry.
Context {P : Platform}.

Lemma cd_Ok remotedir am am' :
  cd remotedir am = Ok am' →
  ∃ u a, _who am = Some u ∧ u ≠ 0 ∧ _accounts am !! u = Some a
    ∧ am' = set_accounts am
              (<[u := replace_pwd a (join_path (pwd a) remotedir)]> (_accounts am)).
Proof.
  unfold cd. intros H.
  destruct (truthy_int (_who am)) eqn:Ht; [|discriminate].
  apply truthy_int_true in Ht as (u & Hw & Hn). rewrite Hw in H. simpl in H.
  destruct (_accounts am !! u) as [a|] eqn:Ha; [|discriminate].
  simpl in H. injection H as <-. eauto 6.
Qed.

(* --------------------------------------------------------------------- *)
(* 8.4 update                                                              *)
(* --------------------------------------------------------------------- *)

(** Away from the identifier 0, `user_id or self._who` is that target. *)
Lemma or_int_target uid am :
  uid ≠ Some 0 → (uid = None → _who am ≠ Some 0) →
  or_int uid (_who am) = target uid am
  ∧ truthy_int (target uid am) = truthy_obj (target uid am).
Proof.
  intros Hg Ha. destruct uid as [i|]; unfold target.
  - assert (i ≠ 0) by congruence.
    by rewrite or_int_given, truthy_int_nonzero.
  - rewrite or_int_omitted. split; [done|].
    destruct (_who am) as [u|]; [|done].
    rewrite truthy_int_nonzero; [done|]. intros ->. by apply Ha.
Qed.

(** Whenever `update` returns, either nothing changed and nothing was
    requested, or one account had its `user` replaced by the record the
    service answered with. *)
Lemma update_Ok uid am w am' w' :
  update uid am w = (Ok am', w') →
  (am' = am ∧ w' = w)
  ∨ ∃ t a api u,
      or_int uid (_who am) = Some t ∧ _accounts am !! t = Some a
      ∧ pcsapi a = Ok api
      ∧ request_user_info api (w_net w) = (Ok u, w_net w')
      ∧ w' = requested api (w_net w') w
      ∧ am' = set_accounts am (<[t := replace_user a u]> (_accounts am)).
Proof.
  unfold update. intros H.
  destruct (truthy_int (or_int uid (_who am))) eqn:Ht;
    [|injection H as <- <-; by left].
  apply truthy_int_true in Ht as (t & Ht & _). rewrite Ht in H. simpl in H.
  destruct (_accounts am !! t) as [a|] eqn:Ha;
    [|injection H as <- <-; by left].
  right. exists t, a. unfold bind, liftR, user_info, ret in H.
  destruct (pcsapi a) as [api|e]; [|discriminate].
  destruct (request_user_info api (w_net w)) as [[u|e] n] eqn:Hr; [|discriminate].
  injection H as <- <-. exists api, u. by simpl.
Qed.

(** C6, as amended: for a call of `update` that does not involve the
    identifier 0, whose target is the given identifier or else the active
    one: if the target is not registered the manager and the world are
    unchanged; if it is registered and the account has no auth material, or
    the request fails, the exception propagates (the manager is not
    touched); otherwise the account of the target gets the fetched record as
    `user`, keeps `pwd`, `encrypt_key` and `salt`, and every other account,
    the active identifier and the data path are unchanged. *)
Theorem update_replaces_user_only uid am w
    (Hgiven : uid ≠ Some 0) (Hactive : uid = None → _who am ≠ Some 0) :
  (dict_get (_accounts am) (target uid am) = None →
     update uid am w = (Ok am, w))
  ∧ (∀ t a, target uid am = Some t → _accounts am !! t = Some a →
       (∀ e, pcsapi a = Raise e → update uid am w = (Raise e, w))
       ∧ (∀ api e n, pcsapi a = Ok api →
            request_user_info api (w_net w) = (Raise e, n) →
            update uid am w = (Raise e, requested api n w))
       ∧ (∀ api u n, pcsapi a = Ok api →
            request_user_info api (w_net w) = (Ok u, n) →
            ∃ am', update uid am w = (Ok am', requested api n w)
              ∧ _accounts am' !! t
                = Some {| user := u; pwd := pwd a;
                          encrypt_key := encrypt_key a; salt := salt a |}
              ∧ (∀ j, j ≠ t → _accounts am' !! j = _accounts am !! j)
              ∧ _who am' = _who am ∧ _data_path am' = _data_path am)).
Proof.
  destruct (or_int_target uid am Hgiven Hactive) as [Hor Htr].
  unfold update. rewrite Hor, Htr. split.
  - intros Hnone. destruct (target uid am) as [t|]; simpl in *; [|done].
    by rewrite Hnone.
  - intros t a -> Ha. simpl. rewrite Ha.
    unfold bind, liftR, user_info, ret. split_and!.
    + by intros e ->.
    + intros api e n -> Hr. by rewrite Hr.
    + intros api u n -> Hr. rewrite Hr. eexists. split; [reflexivity|].
      simpl. split_and!; try done.
      * apply lookup_insert_eq.
      * intros j Hj. by apply lookup_insert_ne.
Qed.

(* --------------------------------------------------------------------- *)
(* 8.5 The invariant                                                       *)
(* --------------------------------------------------------------------- *)

Lemma active_registered_insert am u a :
  active_registered am →
  active_registered (set_accounts am (<[u := a]> (_accounts am))).
Proof.
  intros Hinv v Hv. simpl in *. rewrite lookup_insert.
  case_decide; [by eexists | by apply Hinv].
Qed.

(** C7: the invariant "the active identifier, if set, is a registered key"
    holds of a new manager and is preserved by `useradd`, `userdel`, `su`,
    `set_encrypt_key`, `cd` and `update`; `su` of an unregistered identifier
    raises the "No user" assertion and sets nothing, and `userdel` of the
    active identifier clears it.  An operation that raises has not touched
    the manager. *)
Theorem active_registered_invariant :
  (∀ data_path, active_registered (AccountManager_new data_path))
  ∧ (∀ am, active_registered am →
       (∀ u, active_registered (useradd u am))
       ∧ (∀ uid, active_registered (userdel uid am))
       ∧ (∀ uid am', su uid am = Ok am' → active_registered am')
       ∧ (∀ k s am', set_encrypt_key k s am = Ok am' → active_registered am')
       ∧ (∀ remotedir am', cd remotedir am = Ok am' → active_registered am')
       ∧ (∀ uid w am' w', update uid am w = (Ok am', w') →
            active_registered am'))
  ∧ (∀ uid am, _accounts am !! uid = None →
       su uid am = Raise (AssertionError (NoUser uid)))
  ∧ (∀ uid am, _who am = Some uid → _who (userdel uid am) = None).
Proof.
  split_and!.
  - intros data_path u Hu. discriminate.
  - intros am Hinv. split_and!.
    + intros u. by apply active_registered_insert.
    + intros uid v. rewrite userdel_who, userdel_accounts.
      case_decide as Hw; [discriminate|]. intros Hv.
      rewrite lookup_delete_ne; [by apply Hinv | congruence].
    + intros uid am' [Hreg ->]%su_Ok v [= <-]. done.
    + intros k s am' (u & a & _ & _ & _ & ->)%set_encrypt_key_Ok.
      by apply active_registered_insert.
    + intros remotedir am' (u & a & _ & _ & _ & ->)%cd_Ok.
      by apply active_registered_insert.
    + intros uid w am' w' [[-> _]|(t & a & api & u & _ & _ & _ & _ & _ & ->)]%update_Ok;
        [done | by apply active_registered_insert].
  - apply su_unregistered.
  - intros uid am Hw. rewrite userdel_who. by case_decide.
Qed.

End Registry.

(** On the simulated platform: the account 7 has no auth material, so
    `update(7)` raises the assertion of `pcsapi` although 7 is registered;
    no record is fetched and the identity is not replaced. *)
Lemma update_without_auth_raises :
  let am := Sim.single (Sim.anonymous_user 7) (Some 7) None in
  let w := Sim.world Sim.empty_disk true in
  _accounts am !! 7 = Some (Sim.an_account (Sim.anonymous_user 7))
  ∧ update (Some 7) am w
    = (Raise (AssertionError (AuthIsNone (Sim.an_account (Sim.anonymous_user 7)))), w)
  ∧ ¬ (∃ am' w', update (Some 7) am w = (Ok am', w')).
Proof.
  split; [reflexivity|].
  assert (update (Some 7) (Sim.single (Sim.anonymous_user 7) (Some 7) None)
            (Sim.world Sim.empty_disk true)
          = (Raise (AssertionError
                      (AuthIsNone (Sim.an_account (Sim.anonymous_user 7)))),
             Sim.world Sim.empty_disk true)) as Heq by reflexivity.
  split; [exact Heq|].
  intros (am' & w' & H). rewrite Heq in H. discriminate.
Qed.

Lemma update_replaces_user_only_witness :
  let am := Sim.single (Sim.legacy_user 7) (Some 7) None in
  let w := Sim.world Sim.empty_disk true in
  let api := {| api_bduss := "BDUSS"; api_stoken := None; api_ptoken := None;
                api_cookies := []; api_user_id := Some 7 |} in
  Some 7 ≠ Some 0
  ∧ ∃ u am',
      Sim.request api true = (Ok u, true)
      ∧ update (Some 7) am w = (Ok am', requested (P:=Sim.platform) api true w)
      ∧ _accounts am' !! 7
        = Some {| user := u; pwd := "/a/b";
                  encrypt_key := Some "key"; salt := Some "salt" |}
      ∧ _who am' = Some 7.
Proof.
  intros am w api. split; [discriminate|].
  destruct (update_replaces_user_only (P:=Sim.platform) (Some 7) am w)
    as [_ H]; [discriminate | discriminate |].
  destruct (H 7 (Sim.an_account (Sim.legacy_user 7)) eq_refl eq_refl)
    as (_ & _ & H3).
  destruct (H3 api _ true eq_refl eq_refl) as (am' & Hup & Hacc & _ & Hwho & _).
  eexists _, am'. split; [reflexivity|].
  split; [exact Hup|]. split; [exact Hacc | exact Hwho].
Defined.

Lemma active_registered_invariant_witness :
  active_registered (Sim.with_zero (Some 5))
  ∧ active_registered (useradd (Sim.current_user 9) (Sim.with_zero (Some 5)))
  ∧ active_registered (userdel 5 (Sim.with_zero (Some 5)))
  ∧ su 9 (Sim.with_zero (Some 5)) = Raise (AssertionError (NoUser 9))
  ∧ _who (userdel 5 (Sim.with_zero (Some 5))) = None.
Proof.
  assert (active_registered (Sim.with_zero (Some 5))) as Hinv.
  { intros u [= <-]. by eexists. }
  destruct (active_registered_invariant (P:=Sim.platform))
    as (_ & Hpres & Hsu & Hdel).
  destruct (Hpres _ Hinv) as (Hadd & Hrm & _).
  split; [exact Hinv|]. split; [apply Hadd|]. split; [apply Hrm|].
  split; [apply Hsu; reflexivity | apply Hdel; reflexivity].
Defined.

(* --------------------------------------------------------------------- *)
(* 8.6 save                                                                *)
(* --------------------------------------------------------------------- *)

Section Persistence.
Context {P : Platform}.

(** `save` acts on the file system only. *)
Lemma save_frame data_path am w r w' :
  save data_path am w = (r, w') →
  w_net w' = w_net w ∧ w_requests w' = w_requests w
  ∧ w_console w' = w_console w.
Proof.
  unfold save, bind, liftR, io_exists, io_mkdir, io_write, ret.
  destruct (truthy_path (or_path data_path (_data_path am))); simpl;
    [|by intros [= <- <-]].
  destruct (or_path data_path (_data_path am)) as [q|]; [|by intros [= <- <-]].
  destruct (Path_expanduser q) as [p'|e]; [|by intros [= <- <-]].
  destruct (Path_exists (Path_parent p') (w_fs w)); simpl.
  - destruct (write_file p' (pickle_dumps am) (w_fs w)) as [r1 fs1].
    by intros [= <- <-].
  - destruct (Path_mkdir (Path_parent p') (w_fs w)) as [[[]|e] fs1]; simpl;
      [|by intros [= <- <-]].
    destruct (write_file p' (pickle_dumps am) fs1) as [r1 fs2].
    by intros [= <- <-].
Qed.

(** A `save` that returns has resolved a true path, expanded it and written
    the pickle of the manager there. *)
Lemma save_Ok data_path am w w' :
  save data_path am w = (Ok tt, w') →
  ∃ q p' fs1,
    or_path data_path (_data_path am) = Some q
    ∧ truthy_path (Some q) = true
    ∧ Path_expanduser q = Ok p'
    ∧ write_file p' (pickle_dumps am) fs1 = (Ok tt, w_fs w').
Proof.
  unfold save, bind, liftR, io_exists, io_mkdir, io_write, ret.
  destruct (truthy_path (or_path data_path (_data_path am))) eqn:Ht; simpl;
    [|discriminate].
  destruct (or_path data_path (_data_path am)) as [q|]; [|discriminate].
  destruct (Path_expanduser q) as [p'|e] eqn:Hp; [|discriminate].
  destruct (Path_exists (Path_parent p') (w_fs w)); simpl.
  - destruct (write_file p' (pickle_dumps am) (w_fs w)) as [r1 fs1] eqn:Hw.
    intros [= -> <-]. by exists q, p', (w_fs w).
  - destruct (Path_mkdir (Path_parent p') (w_fs w)) as [[[]|e] fs1]; simpl;
      [|discriminate].
    destruct (write_file p' (pickle_dumps am) fs1) as [r1 fs2] eqn:Hw.
    intros [= -> <-]. by exists q, p', fs1.
Qed.

(** After a `save` that returned, the file at the expanded path holds a
    pickle that loads as the manager that was saved. *)
Lemma save_then_read `{!PlatformLaws P} data_path am w w' :
  save data_path am w = (Ok tt, w') →
  ∃ q p' b,
    or_path data_path (_data_path am) = Some q
    ∧ truthy_path (Some q) = true
    ∧ Path_expanduser q = Ok p'
    ∧ read_file p' (w_fs w') = Ok b
    ∧ pickle_loads b = Ok am.
Proof.
  intros (q & p' & fs1 & Hq & Ht & Hp & Hw)%save_Ok.
  exists q, p', (pickle_dumps am). split_and!; try done.
  - by eapply read_after_write.
  - apply pickle_loads_dumps.
Qed.

(* --------------------------------------------------------------------- *)
(* 8.7 The compatibility pass                                              *)
(* --------------------------------------------------------------------- *)

(** Away from the identifier 0, `update(k)` of a registered account with
    auth material sends one request and stores the answer. *)
Lemma update_registered k am a api w :
  k ≠ 0 → _accounts am !! k = Some a → pcsapi a = Ok api →
  update (Some k) am w
  = match request_user_info api (w_net w) with
    | (Ok u, n) =>
        (Ok (set_accounts am (<[k := replace_user a u]> (_accounts am))),
         requested api n w)
    | (Raise e, n) => (Raise e, requested api n w)
    end.
Proof.
  intros Hk Ha Hapi. unfold update.
  rewrite or_int_given, truthy_int_nonzero by done. simpl. rewrite Ha.
  unfold bind, liftR, user_info, ret. rewrite Hapi.
  by destruct (request_user_info api (w_net w)) as [[u|e] n].
Qed.

Lemma compat_loop_skip j keys am w :
  (∀ a, _accounts am !! j = Some a → legacy a = false) →
  compat_loop (j :: keys) am w = compat_loop keys am w.
Proof.
  intros Hj. simpl. destruct (_accounts am !! j) as [a|]; [|done].
  unfold bind at 1. specialize (Hj a eq_refl). unfold legacy in Hj.
  by rewrite Hj.
Qed.

Lemma compat_loop_legacy k keys am a w :
  _accounts am !! k = Some a → legacy a = true →
  compat_loop (k :: keys) am w
  = match update (Some k) am (printed (update_notice k) w) with
    | (Ok am', w') => compat_loop keys am' w'
    | (Raise e, w') => (Raise e, w')
    end.
Proof.
  intros Ha Hl. simpl. rewrite Ha. unfold legacy in Hl. rewrite Hl.
  unfold bind, print. by destruct (update _ _ _) as [[am'|e] w'].
Qed.

Lemma compat_loop_app l1 l2 am w :
  compat_loop (l1 ++ l2) am w
  = match compat_loop l1 am w with
    | (Ok am1, w1) => compat_loop l2 am1 w1
    | (Raise e, w1) => (Raise e, w1)
    end.
Proof.
  revert am w. induction l1 as [|j l1 IH]; intros am w; [done|].
  simpl. destruct (_accounts am !! j) as [a|]; [|apply IH].
  unfold bind at 1 3.
  destruct (if isinstance_dict (products (user a)) then _ else _)
    as [[am'|e] w']; [apply IH | done].
Qed.

(** Over keys whose accounts are all current-shaped the loop changes
    nothing: no notice, no request. *)
Lemma compat_loop_current keys am w :
  (∀ j a, j ∈ keys → _accounts am !! j = Some a → legacy a = false) →
  compat_loop keys am w = (Ok am, w).
Proof.
  induction keys as [|j keys IH]; intros Hcur; [done|].
  rewrite compat_loop_skip.
  - apply IH. intros i a Hi. apply Hcur. by right.
  - intros a. apply Hcur. by left.
Qed.

(** Over distinct keys of which exactly `k` holds a legacy-shaped account,
    the loop prints one notice, sends one request and replaces the `user` of
    `k`, provided `k` is not 0, the account has auth material and the answer
    is current-shaped. *)
Lemma compat_loop_one_legacy keys am w k a api u n :
  NoDup keys → k ∈ keys → k ≠ 0 →
  _accounts am !! k = Some a → legacy a = true →
  (∀ j a', j ≠ k → _accounts am !! j = Some a' → legacy a' = false) →
  pcsapi a = Ok api →
  request_user_info api (w_net w) = (Ok u, n) →
  compat_loop keys am w
  = (Ok (set_accounts am (<[k := replace_user a u]> (_accounts am))),
     requested api n (printed (update_notice k) w)).
Proof.
  intros Hnd Hin Hk Ha Hl Hothers Hapi Hreq.
  induction keys as [|j keys IH]; [by apply elem_of_nil in Hin|].
  apply NoDup_cons in Hnd as [Hj Hnd].
  destruct (decide (j = k)) as [->|Hjk].
  - rewrite (compat_loop_legacy k keys am a) by done.
    rewrite (update_registered k am a api) by done. simpl. rewrite Hreq.
    apply compat_loop_current. intros i a' Hi. simpl.
    rewrite lookup_insert_ne by (intros ->; done).
    apply Hothers. by intros ->.
  - rewrite compat_loop_skip by (intros a'; by apply Hothers).
    apply IH; [done|]. apply elem_of_cons in Hin as [->|Hin]; done.
Qed.

Lemma backfill_fields am fs :
  _accounts (backfill am fs) = _accounts am ∧ _who (backfill am fs) = _who am.
Proof. unfold backfill. by destruct (_ || _). Qed.

(** With a true data path that exists on disk the backfill changes nothing;
    otherwise the data path becomes `ACCOUNT_DATA_PATH`. *)
Lemma backfill_data_path am fs :
  _data_path (backfill am fs)
  = match _data_path am with
    | Some q =>
        if truthy_path (Some q) && Path_exists q fs
        then Some q else Some ACCOUNT_DATA_PATH
    | None => Some ACCOUNT_DATA_PATH
    end.
Proof.
  unfold backfill. destruct (_data_path am) as [q|] eqn:Hq; [|done].
  destruct (truthy_path (Some q)); [|done]. simpl.
  by destruct (Path_exists q fs).
Qed.

Lemma backfill_id am fs q :
  _data_path am = Some q → truthy_path (Some q) = true →
  Path_exists q fs = true → backfill am fs = am.
Proof. intros Hq Ht He. unfold backfill. by rewrite Hq, Ht, He. Qed.

(** `_compat_v0_5_9` once the loop has returned: backfill, then `save`. *)
Lemma compat_after_loop am w am1 w1 :
  compat_loop (map_to_list (_accounts am)).*1 am w = (Ok am1, w1) →
  _compat_v0_5_9 am w
  = match save None (backfill am1 (w_fs w1)) w1 with
    | (Ok _, w2) => (Ok (backfill am1 (w_fs w1)), w2)
    | (Raise e, w2) => (Raise e, w2)
    end.
Proof.
  intros Hloop. unfold _compat_v0_5_9, bind at 1. rewrite Hloop.
  unfold bind, io_fs, ret.
  by destruct (save None (backfill am1 (w_fs w1)) w1) as [[[]|e] w2].
Qed.

Lemma compat_loop_raised am w e w1 :
  compat_loop (map_to_list (_accounts am)).*1 am w = (Raise e, w1) →
  _compat_v0_5_9 am w = (Raise e, w1).
Proof. intros Hloop. unfold _compat_v0_5_9, bind at 1. by rewrite Hloop. Qed.

(* --------------------------------------------------------------------- *)
(* 8.8 load_data                                                           *)
(* --------------------------------------------------------------------- *)

(** `load_data` once the file has been read and unpickled: the result of
    the compatibility pass, or a new manager if the pass raised. *)
Lemma load_data_loaded p p' w b am :
  Path_expanduser p = Ok p' → read_file p' (w_fs w) = Ok b →
  pickle_loads b = Ok am →
  load_data p w
  = match _compat_account_manager am w with
    | (Ok am', w') => (Ok am', w')
    | (Raise _, w') => (Ok (AccountManager_new (Some p')), w')
    end.
Proof.
  intros Hp Hr Hb. unfold load_data. rewrite Hp.
  unfold try_except, bind, io_read, liftR, ret. rewrite Hr, Hb.
  by destruct (_compat_account_manager am w) as [[am'|e] w'].
Qed.

(** C1: `load_data` never raises, and when expanding the path, reading the
    file or unpickling its bytes fails, it returns a new manager (no
    accounts, no active identifier) and leaves the world as it was.  The
    data path of that manager is the path given, with `~` expanded when the
    expansion itself succeeded. *)
Theorem load_data_never_raises p w :
  (∃ am w', load_data p w = (Ok am, w'))
  ∧ (∀ e, Path_expanduser p = Raise e →
       load_data p w = (Ok (AccountManager_new (Some p)), w))
  ∧ (∀ p', Path_expanduser p = Ok p' →
       (∀ e, read_file p' (w_fs w) = Raise e →
          load_data p w = (Ok (AccountManager_new (Some p')), w))
       ∧ (∀ b e, read_file p' (w_fs w) = Ok b → pickle_loads b = Raise e →
            load_data p w = (Ok (AccountManager_new (Some p')), w))).
Proof.
  unfold load_data. destruct (Path_expanduser p) as [p'|e0].
  - unfold try_except. split_and!.
    + destruct (bind _ _ w) as [[am|e] w']; unfold ret; eauto.
    + discriminate.
    + intros ? [= <-]. unfold bind, io_read, liftR. split.
      * by intros e ->.
      * by intros b e -> ->.
  - unfold ret. split_and!; [eauto | done | discriminate].
Qed.

(** C4, as amended: when the file is read and unpickled and, in the
    compatibility pass, the request for a legacy-shaped account (with a
    non-zero identifier and auth material) raises, `load_data` catches the
    exception and returns a new manager bound to the expanded path; the
    notice and the request stay in the world. *)
Theorem load_data_catches_refetch_error
    p p' w b am ks1 k ks2 am1 w1 a api e n :
  Path_expanduser p = Ok p' → read_file p' (w_fs w) = Ok b →
  pickle_loads b = Ok am →
  (map_to_list (_accounts am)).*1 = (ks1 ++ k :: ks2)%list →
  compat_loop ks1 am w = (Ok am1, w1) →
  k ≠ 0 → _accounts am1 !! k = Some a → legacy a = true →
  pcsapi a = Ok api →
  request_user_info api (w_net w1) = (Raise e, n) →
  load_data p w
  = (Ok (AccountManager_new (Some p')),
     requested api n (printed (update_notice k) w1)).
Proof.
  intros Hp Hr Hb Hkeys Hloop Hk Ha Hl Hapi Hreq.
  rewrite (load_data_loaded p p' w b am) by done.
  unfold _compat_account_manager.
  rewrite (compat_loop_raised am w e
             (requested api n (printed (update_notice k) w1))); [done|].
  rewrite Hkeys, compat_loop_app, Hloop.
  rewrite (compat_loop_legacy k ks2 am1 a) by done.
  rewrite (update_registered k am1 a api) by done.
  simpl. by rewrite Hreq.
Qed.

(** C2, as amended: for a manager with no legacy-shaped account, if `save`
    on a path returns and the `save` at the end of the compatibility pass
    returns, then `load_data` on that path returns a manager with the same
    accounts and the same active identifier; its data path is the saved one
    when that is a true path that exists on disk, and `ACCOUNT_DATA_PATH`
    otherwise. *)
Theorem save_then_load_data `{!PlatformLaws P} data_path am w0 w1 q w2 :
  (∀ j a, _accounts am !! j = Some a → legacy a = false) →
  save data_path am w0 = (Ok tt, w1) →
  or_path data_path (_data_path am) = Some q →
  save None (backfill am (w_fs w1)) w1 = (Ok tt, w2) →
  ∃ am', load_data q w1 = (Ok am', w2)
    ∧ _accounts am' = _accounts am
    ∧ _who am' = _who am
    ∧ _data_path am'
      = match _data_path am with
        | Some s =>
            if truthy_path (Some s) && Path_exists s (w_fs w1)
            then Some s else Some ACCOUNT_DATA_PATH
        | None => Some ACCOUNT_DATA_PATH
        end.
Proof.
  intros Hcur Hsave Hq Hresave.
  apply save_then_read in Hsave as (q' & p' & b & Hq' & _ & Hp & Hr & Hb).
  rewrite Hq in Hq'. injection Hq' as <-.
  exists (backfill am (w_fs w1)).
  destruct (backfill_fields am (w_fs w1)) as [Hacc Hwho].
  split_and!; [|done|done|apply backfill_data_path].
  rewrite (load_data_loaded q p' w1 b am) by done.
  unfold _compat_account_manager.
  rewrite (compat_after_loop am w1 am w1).
  - by rewrite Hresave.
  - apply compat_loop_current. intros j a _. apply Hcur.
Qed.

(** C3, as amended: let the file at `p` unpickle to a manager in which
    exactly the account `k` is legacy-shaped, with `k` not 0 and auth
    material present.  If the request for `k` is answered with a
    current-shaped record and the `save` of the compatibility pass returns,
    then `load_data p` sends exactly that one request, stores the answer as
    the `user` of `k` and returns the manager it saved; and a `load_data` of
    the data path of that manager, straight after, sends no request and
    prints nothing, and its final world is the one its `save` leaves. *)
Theorem load_data_migrates_once `{!PlatformLaws P}
    p p' w b am k a api u n w2 :
  Path_expanduser p = Ok p' → read_file p' (w_fs w) = Ok b →
  pickle_loads b = Ok am →
  _accounts am !! k = Some a → legacy a = true →
  (∀ j a', j ≠ k → _accounts am !! j = Some a' → legacy a' = false) →
  k ≠ 0 → pcsapi a = Ok api →
  request_user_info api (w_net w) = (Ok u, n) →
  isinstance_dict (products u) = false →
  let w1 := requested api n (printed (update_notice k) w) in
  let am1 :=
    backfill (set_accounts am (<[k := replace_user a u]> (_accounts am)))
             (w_fs w1) in
  save None am1 w1 = (Ok tt, w2) →
  load_data p w = (Ok am1, w2)
  ∧ w_requests w2 = api :: w_requests w
  ∧ _accounts am1 !! k = Some (replace_user a u)
  ∧ (∀ j, j ≠ k → _accounts am1 !! j = _accounts am !! j)
  ∧ ∃ q am2 w3 r,
      _data_path am1 = Some q
      ∧ load_data q w2 = (Ok am2, w3)
      ∧ w_requests w3 = w_requests w2
      ∧ w_console w3 = w_console w2
      ∧ save None (backfill am1 (w_fs w2)) w2 = (r, w3).
Proof.
  intros Hp Hr Hb Ha Hl Hothers Hk Hapi Hreq Hu w1 am1 Hsave.
  assert (_accounts am1 = <[k := replace_user a u]> (_accounts am)) as Hacc1.
  { unfold am1. by destruct (backfill_fields
      (set_accounts am (<[k := replace_user a u]> (_accounts am))) (w_fs w1)). }
  assert (∀ j a', _accounts am1 !! j = Some a' → legacy a' = false) as Hcur1.
  { intros j a'. rewrite Hacc1, lookup_insert. case_decide as Hjk.
    - by intros [= <-].
    - apply Hothers. congruence. }
  split_and!.
  - rewrite (load_data_loaded p p' w b am) by done.
    unfold _compat_account_manager.
    rewrite (compat_after_loop am w
               (set_accounts am (<[k := replace_user a u]> (_accounts am))) w1).
    + fold am1. by rewrite Hsave.
    + apply (compat_loop_one_legacy _ am w k a api u n); try done.
      * apply NoDup_fst_map_to_list.
      * apply list_elem_of_fmap. exists (k, a). split; [done|].
        by apply elem_of_map_to_list.
  - destruct (save_frame None am1 w1 _ w2 Hsave) as (_ & -> & _). done.
  - rewrite Hacc1. apply lookup_insert_eq.
  - intros j Hj. rewrite Hacc1. by apply lookup_insert_ne.
  - pose proof Hsave as (q & p2 & b2 & Hq & _ & Hp2 & Hr2 & Hb2)%save_then_read.
    unfold or_path in Hq. simpl in Hq.
    destruct (save None (backfill am1 (w_fs w2)) w2) as [r w3] eqn:Hsave2.
    destruct (save_frame _ _ _ _ _ Hsave2) as (_ & Hreqs & Hcons).
    assert (_compat_v0_5_9 am1 w2
            = match r with
              | Ok _ => (Ok (backfill am1 (w_fs w2)), w3)
              | Raise e => (Raise e, w3)
              end) as Hcompat.
    { rewrite (compat_after_loop am1 w2 am1 w2).
      - by rewrite Hsave2.
      - apply compat_loop_current. intros j a' _. apply Hcur1. }
    exists q.
    exists (match r with
            | Ok _ => backfill am1 (w_fs w2)
            | Raise _ => AccountManager_new (Some p2)
            end), w3, r.
    split_and!; try done.
    rewrite (load_data_loaded q p2 w2 b2 am1) by done.
    unfold _compat_account_manager. rewrite Hcompat. by destruct r.
Qed.

End Persistence.

(* --------------------------------------------------------------------- *)
(* 8.9 Runs on the simulated platform                                      *)
(* --------------------------------------------------------------------- *)

Lemma Sim_read_after_write p b (fs fs' : gmap string Sim.Node) :
  Sim.write p b fs = (Ok tt, fs') → Sim.read p fs' = Ok b.
Proof.
  unfold Sim.write, Sim.read.
  destruct (fs !! p) as [[b0|]|]; try discriminate;
    destruct (fs !! Sim.parent p) as [[b1|]|]; try discriminate;
    intros [= <-]; by rewrite lookup_insert_eq.
Qed.

Lemma Sim_single_lookup u active path j a :
  _accounts (Sim.single u active path) !! j = Some a →
  j = user_id u ∧ a = Sim.an_account u.
Proof.
  unfold Sim.single. simpl. by intros [-> ->]%lookup_singleton_Some.
Qed.

Lemma Sim_laws : PlatformLaws Sim.platform.
Proof.
  split.
  - reflexivity.
  - exact Sim_read_after_write.
Qed.

Lemma load_data_never_raises_witness :
  load_data "~/missing.pk" (Sim.world Sim.empty_disk true)
  = (Ok (AccountManager_new (Some "/home/user/missing.pk")),
     Sim.world Sim.empty_disk true)
  ∧ load_data "/data/accounts.pk" (Sim.world Sim.garbage_disk true)
    = (Ok (AccountManager_new (Some "/data/accounts.pk")),
       Sim.world Sim.garbage_disk true).
Proof.
  split.
  - destruct (load_data_never_raises (P:=Sim.platform) "~/missing.pk"
                (Sim.world Sim.empty_disk true)) as (_ & _ & H).
    destruct (H "/home/user/missing.pk" eq_refl) as [Hread _].
    apply (Hread (OSError "FileNotFoundError")). reflexivity.
  - destruct (load_data_never_raises (P:=Sim.platform) "/data/accounts.pk"
                (Sim.world Sim.garbage_disk true)) as (_ & _ & H).
    destruct (H "/data/accounts.pk" eq_refl) as [_ Hload].
    apply (Hload (Sim.Garbage "not a pickle")
                 (UnpicklingError "invalid load key")); reflexivity.
Defined.

(** On the simulated platform with the service unreachable: the file holds
    a manager whose only account is legacy-shaped, the compatibility pass
    raises the network error of the request, and `load_data` does not raise
    it: it returns a new manager. *)
Lemma load_data_swallows_network_error :
  let w := Sim.world (Sim.disk_with Sim.legacy_manager) false in
  Sim.read "/data/accounts.pk" (w_fs w) = Ok (Sim.Pickled Sim.legacy_manager)
  ∧ fst (_compat_account_manager Sim.legacy_manager w)
    = Raise (NetworkError "ConnectionError")
  ∧ fst (load_data "/data/accounts.pk" w)
    = Ok (AccountManager_new (Some "/data/accounts.pk"))
  ∧ ¬ (∃ e w', load_data "/data/accounts.pk" w = (Raise e, w')).
Proof.
  intros w.
  assert (fst (load_data "/data/accounts.pk" w)
          = Ok (AccountManager_new (Some "/data/accounts.pk"))) as Hload
    by (vm_compute; reflexivity).
  split; [vm_compute; reflexivity|]. split; [vm_compute; reflexivity|].
  split; [exact Hload|].
  intros (e & w' & H). rewrite H in Hload. discriminate.
Qed.

Lemma load_data_catches_refetch_error_witness :
  let w := Sim.world (Sim.disk_with Sim.legacy_manager) false in
  let api := {| api_bduss := "BDUSS"; api_stoken := None; api_ptoken := None;
                api_cookies := []; api_user_id := Some 7 |} in
  7 ≠ 0
  ∧ load_data "/data/accounts.pk" w
    = (Ok (AccountManager_new (Some "/data/accounts.pk")),
       requested (P:=Sim.platform) api false (printed (update_notice 7) w)).
Proof.
  intros w api. split; [lia|].
  apply (load_data_catches_refetch_error (P:=Sim.platform)
           "/data/accounts.pk" "/data/accounts.pk" w
           (Sim.Pickled Sim.legacy_manager) Sim.legacy_manager
           [] 7 [] Sim.legacy_manager w
           (Sim.an_account (Sim.legacy_user 7)) api
           (NetworkError "ConnectionError") false).
  - reflexivity.
  - reflexivity.
  - reflexivity.
  - vm_compute; reflexivity.
  - reflexivity.
  - lia.
  - reflexivity.
  - reflexivity.
  - reflexivity.
  - reflexivity.
Defined.

(** On the simulated platform: a manager that was never given a data path
    is saved to a path and loaded from it; the loaded manager has
    `ACCOUNT_DATA_PATH` as data path, the saved one has none. *)
Lemma save_then_load_data_changes_path :
  let am := AccountManager_new None in
  let w0 := Sim.world Sim.empty_disk true in
  let w1 := snd (save (Some "/data/accounts.pk") am w0) in
  fst (save (Some "/data/accounts.pk") am w0) = Ok tt
  ∧ ∃ am', fst (load_data "/data/accounts.pk" w1) = Ok am'
      ∧ _data_path am = None
      ∧ _data_path am' = Some "/home/user/.baidupcs-py/accounts.pk"
      ∧ _data_path am' ≠ _data_path am.
Proof.
  intros am w0 w1. split; [vm_compute; reflexivity|].
  exists (set_data_path am (Some "/home/user/.baidupcs-py/accounts.pk")).
  split; [vm_compute; reflexivity|].
  split; [reflexivity|]. split; [reflexivity | discriminate].
Qed.

Lemma save_then_load_data_witness :
  let am := Sim.single (Sim.current_user 7) (Some 7)
                       (Some "/data/accounts.pk") in
  let w0 := Sim.world Sim.empty_disk true in
  let w1 := snd (save None am w0) in
  let w2 := snd (save None (backfill am (w_fs w1)) w1) in
  save None am w0 = (Ok tt, w1)
  ∧ ∃ am', load_data "/data/accounts.pk" w1 = (Ok am', w2)
      ∧ _accounts am' = _accounts am
      ∧ _who am' = _who am
      ∧ _data_path am' = _data_path am.
Proof.
  intros am w0 w1 w2.
  assert (∀ j a, _accounts am !! j = Some a → legacy a = false) as Hcur.
  { intros j a [_ ->]%Sim_single_lookup. reflexivity. }
  assert (save None am w0 = (Ok tt, w1)) as Hsave
    by (vm_compute; reflexivity).
  assert (save None (backfill am (w_fs w1)) w1 = (Ok tt, w2)) as Hresave
    by (vm_compute; reflexivity).
  destruct (@save_then_load_data Sim.platform Sim_laws None am w0 w1
              "/data/accounts.pk" w2 Hcur Hsave eq_refl Hresave)
    as (am' & Hload & Hacc & Hwho & Hpath).
  split; [exact Hsave|]. exists am'.
  split; [exact Hload|]. split; [exact Hacc|]. split; [exact Hwho|].
  rewrite Hpath. vm_compute; reflexivity.
Defined.

(** On the simulated platform with the service unreachable: the first
    `load_data` of a file with one legacy-shaped account sends one request,
    returns a manager with no account and leaves the file as it was; the
    second `load_data` sends a second request. *)
Lemma load_data_offline_migrates_nothing :
  let p := "/data/accounts.pk" in
  let w := Sim.world (Sim.disk_with Sim.legacy_manager) false in
  let w1 := snd (load_data p w) in
  let w2 := snd (load_data p w1) in
  fst (load_data p w) = Ok (AccountManager_new (Some p))
  ∧ Sim.read p (w_fs w1) = Ok (Sim.Pickled Sim.legacy_manager)
  ∧ length (w_requests w1) = 1%nat
  ∧ fst (load_data p w1) = Ok (AccountManager_new (Some p))
  ∧ length (w_requests w2) = 2%nat.
Proof.
  intros p w w1 w2. split_and!; vm_compute; reflexivity.
Qed.

Lemma load_data_migrates_once_witness :
  let w := Sim.world (Sim.disk_with Sim.legacy_manager) true in
  let api := {| api_bduss := "BDUSS"; api_stoken := None; api_ptoken := None;
                api_cookies := []; api_user_id := Some 7 |} in
  let w2 := snd (load_data "/data/accounts.pk" w) in
  ∃ am1 am2 w3,
    load_data "/data/accounts.pk" w = (Ok am1, w2)
    ∧ w_requests w2 = [api]
    ∧ (legacy <$> _accounts am1 !! 7) = Some false
    ∧ load_data "/data/accounts.pk" w2 = (Ok am2, w3)
    ∧ w_requests w3 = [api].
Proof.
  intros w api w2.
  set (a := Sim.an_account (Sim.legacy_user 7)).
  set (u := {| user_id := 7; user_name := Some "fetched";
               auth := Some Sim.an_auth;
               products := Some (ProductsFlat ["svip"]) |}).
  set (w1 := requested (P:=Sim.platform) api true (printed (update_notice 7) w)).
  set (am1 := backfill
                (set_accounts Sim.legacy_manager
                   (<[7 := replace_user a u]> (_accounts Sim.legacy_manager)))
                (w_fs w1)).
  assert (∀ j a', j ≠ 7 → _accounts Sim.legacy_manager !! j = Some a' →
                  legacy a' = false) as Hothers.
  { intros j a' Hj [-> _]%Sim_single_lookup. done. }
  assert (save None am1 w1 = (Ok tt, w2)) as Hsave
    by (vm_compute; reflexivity).
  destruct (@load_data_migrates_once Sim.platform Sim_laws
              "/data/accounts.pk" "/data/accounts.pk" w
              (Sim.Pickled Sim.legacy_manager) Sim.legacy_manager 7 a api u
              true w2 eq_refl eq_refl eq_refl eq_refl eq_refl Hothers
              ltac:(lia) eq_refl eq_refl eq_refl Hsave)
    as (Hload & Hreq & Hacc & _ & q & am2 & w3 & r & Hq & Hload2 & Hreq2 & _).
  assert (Some q = Some "/data/accounts.pk") as [= ->]
    by (rewrite <- Hq; vm_compute; reflexivity).
  exists am1, am2, w3.
  split; [exact Hload|]. split; [exact Hreq|].
  split; [rewrite (Hacc : _accounts am1 !! 7 = _); reflexivity|].
  split; [exact Hload2|]. rewrite Hreq2. exact Hreq.
Defined.

(* ===================================================================== *)
(* 9. Further properties of the registry                                   *)
(* ===================================================================== *)

(* --------------------------------------------------------------------- *)
(* 9.1 accounts, su, useradd, userdel                                      *)
(* --------------------------------------------------------------------- *)

Lemma AccountManager_eq am am' :
  _accounts am = _accounts am' → _who am = _who am' →
  _data_path am = _data_path am' → am = am'.
Proof. destruct am, am'. simpl. by intros -> -> ->. Qed.

(** `accounts` lists exactly the registered accounts, one entry per key. *)
Theorem accounts_lists_registered am :
  (∀ a, a ∈ accounts am ↔ ∃ k, _accounts am !! k = Some a)
  ∧ length (accounts am) = size (_accounts am).
Proof.
  unfold accounts. split.
  - intros a. rewrite list_elem_of_fmap. split.
    + intros ([k a'] & -> & Hin). exists k. by apply elem_of_map_to_list.
    + intros [k Hk]. exists (k, a). split; [done|].
      by apply elem_of_map_to_list.
  - by rewrite length_fmap, length_map_to_list.
Qed.

(** `su` of a registered non-zero identifier makes it the active one: `who()`
    then returns its account; the accounts and the data path are as before. *)
Theorem su_then_who uid a am :
  _accounts am !! uid = Some a → uid ≠ 0 →
  ∃ am', su uid am = Ok am'
    ∧ who None am' = Some a
    ∧ who (Some uid) am' = Some a
    ∧ _accounts am' = _accounts am
    ∧ _data_path am' = _data_path am.
Proof.
  intros Ha Hn. exists (set_who am (Some uid)). split_and!; try done.
  - unfold su. rewrite bool_decide_eq_true_2 by (by eexists). done.
  - by rewrite (who_omitted_nonzero uid).
  - by rewrite who_given_nonzero.
Qed.

Lemma su_then_who_witness :
  ∃ am', su 5 (Sim.with_zero None) = Ok am'
    ∧ who None am' = Some (Account_new (Sim.current_user 5)).
Proof.
  destruct (su_then_who 5 (Account_new (Sim.current_user 5))
              (Sim.with_zero None) eq_refl ltac:(lia))
    as (am' & Hsu & Hwho & _).
  exists am'. split; [exact Hsu | exact Hwho].
Defined.

(** `useradd` is a fresh registration: whatever the manager held under the
    identifier before, after `useradd` and `su` of a non-zero identifier
    `who()` returns the account of the new user with `pwd` "/" and no
    encryption settings, and `pwd` returns "/". *)
Theorem useradd_then_su u am :
  user_id u ≠ 0 →
  ∃ am', su (user_id u) (useradd u am) = Ok am'
    ∧ who None am'
      = Some {| user := u; pwd := "/"; encrypt_key := None; salt := None |}
    ∧ AccountManager_pwd am' = Ok "/"
    ∧ ∀ j, j ≠ user_id u → _accounts am' !! j = _accounts am !! j.
Proof.
  intros Hn.
  assert (_accounts (useradd u am) !! user_id u = Some (Account_new u)) as Ha.
  { rewrite useradd_lookup. by case_decide. }
  exists (set_who (useradd u am) (Some (user_id u))). split_and!.
  - unfold su. rewrite bool_decide_eq_true_2 by (by eexists). done.
  - by rewrite (who_omitted_nonzero (user_id u)).
  - unfold AccountManager_pwd. simpl _who.
    rewrite truthy_int_nonzero by done. simpl.
    by rewrite lookup_insert_eq.
  - intros j Hj. simpl. by rewrite lookup_insert_ne.
Qed.

Lemma useradd_then_su_witness :
  ∃ am', su 5 (useradd (Sim.legacy_user 5) (Sim.with_zero (Some 0))) = Ok am'
    ∧ AccountManager_pwd am' = Ok "/".
Proof.
  destruct (useradd_then_su (Sim.legacy_user 5) (Sim.with_zero (Some 0))
              ltac:(simpl; lia))
    as (am' & Hsu & _ & Hpwd & _).
  exists am'. split; [exact Hsu | exact Hpwd].
Defined.

(** `userdel` undoes `useradd` of an identifier that was neither registered
    nor active. *)
Theorem userdel_undoes_useradd u am :
  _accounts am !! user_id u = None → _who am ≠ Some (user_id u) →
  userdel (user_id u) (useradd u am) = am.
Proof.
  intros Hnone Hw. apply AccountManager_eq.
  - rewrite userdel_accounts. simpl. by apply delete_insert_id.
  - rewrite userdel_who. simpl. case_decide; congruence.
  - by rewrite userdel_data_path.
Qed.

Lemma userdel_undoes_useradd_witness :
  userdel 9 (useradd (Sim.current_user 9) (Sim.with_zero (Some 5)))
  = Sim.with_zero (Some 5).
Proof.
  apply (userdel_undoes_useradd (Sim.current_user 9) (Sim.with_zero (Some 5))).
  - reflexivity.
  - discriminate.
Defined.

(** `userdel` of an identifier that is neither registered nor active changes
    nothing (no `KeyError`), and a second `userdel` of the same identifier
    changes nothing more. *)
Theorem userdel_missing_and_twice uid am :
  (_accounts am !! uid = None → _who am ≠ Some uid → userdel uid am = am)
  ∧ userdel uid (userdel uid am) = userdel uid am.
Proof.
  assert (∀ am', _accounts am' !! uid = None → _who am' ≠ Some uid →
                 userdel uid am' = am') as Hid.
  { intros am' Hnone Hw. apply AccountManager_eq.
    - rewrite userdel_accounts. by apply delete_id.
    - rewrite userdel_who. case_decide; congruence.
    - apply userdel_data_path. }
  split; [apply Hid|]. apply Hid.
  - rewrite userdel_accounts. apply lookup_delete_eq.
  - rewrite userdel_who. case_decide; congruence.
Qed.

Lemma userdel_missing_and_twice_witness :
  userdel 9 (Sim.with_zero (Some 5)) = Sim.with_zero (Some 5).
Proof.
  destruct (userdel_missing_and_twice 9 (Sim.with_zero (Some 5))) as [H _].
  apply H; [reflexivity | discriminate].
Defined.

(** Once an identifier has been deleted, `su` to it raises "No user". *)
Theorem su_after_userdel_raises uid am :
  su uid (userdel uid am) = Raise (AssertionError (NoUser uid)).
Proof.
  apply su_unregistered. rewrite userdel_accounts. apply lookup_delete_eq.
Qed.

(* --------------------------------------------------------------------- *)
(* 9.2 set_encrypt_key, cd, pwd                                            *)
(* --------------------------------------------------------------------- *)

(** A second `set_encrypt_key` replaces what the first one stored, and
    `who()` shows the account with the last key and salt. *)
Theorem set_encrypt_key_last_wins k1 s1 k2 s2 am u a :
  _who am = Some u → u ≠ 0 → _accounts am !! u = Some a →
  ∃ am1 am2,
    set_encrypt_key k1 s1 am = Ok am1
    ∧ set_encrypt_key k2 s2 am1 = Ok am2
    ∧ set_encrypt_key k2 s2 am = Ok am2
    ∧ who None am2
      = Some {| user := user a; pwd := pwd a; encrypt_key := k2; salt := s2 |}.
Proof.
  intros Hw Hn Ha.
  set (am1 := set_accounts am (<[u := replace_encrypt a k1 s1]> (_accounts am))).
  exists am1, (set_accounts am (<[u := replace_encrypt a k2 s2]> (_accounts am))).
  split; [by apply set_encrypt_key_nonzero|].
  split.
  { rewrite (set_encrypt_key_nonzero k2 s2 am1 u (replace_encrypt a k1 s1));
      [|done|done|apply lookup_insert_eq].
    unfold am1, set_accounts. simpl. by rewrite insert_insert_eq. }
  split.
  - by apply set_encrypt_key_nonzero.
  - rewrite (who_omitted_nonzero u) by done. simpl. apply lookup_insert_eq.
Qed.

Lemma set_encrypt_key_last_wins_witness :
  ∃ am2, set_encrypt_key None None (Sim.with_zero (Some 5)) = Ok am2
    ∧ who None am2 = Some (Account_new (Sim.current_user 5)).
Proof.
  destruct (set_encrypt_key_last_wins (Some "k") (Some "s") None None
              (Sim.with_zero (Some 5)) 5 (Account_new (Sim.current_user 5))
              eq_refl ltac:(lia) eq_refl)
    as (am1 & am2 & _ & _ & H3 & Hwho).
  exists am2. split; [exact H3 | exact Hwho].
Defined.

(** `set_encrypt_key` and `pwd` return exactly when `who()` returns an
    account.  When `who()` returns nothing they raise "No recent user" if no
    non-zero identifier is active, and the bare assertion if the active
    identifier is not registered. *)
Theorem session_ops_need_who k s am :
  (∀ a, who None am = Some a →
     AccountManager_pwd am = Ok (pwd a)
     ∧ ∃ am', set_encrypt_key k s am = Ok am')
  ∧ (who None am = None →
     (truthy_int (_who am) = false
      ∧ AccountManager_pwd am = Raise (AssertionError NoRecentUser)
      ∧ set_encrypt_key k s am = Raise (AssertionError NoRecentUser))
     ∨ (truthy_int (_who am) = true
        ∧ AccountManager_pwd am = Raise (AssertionError NoAccount)
        ∧ set_encrypt_key k s am = Raise (AssertionError NoAccount))).
Proof.
  unfold who, AccountManager_pwd, set_encrypt_key.
  rewrite or_int_omitted.
  destruct (truthy_int (_who am)) eqn:Ht; simpl.
  - destruct (dict_get (_accounts am) (_who am)) as [a|]; simpl.
    + split; [|discriminate]. intros ? [= <-]. eauto.
    + split; [discriminate|]. intros _. by right.
  - split; [discriminate|]. intros _. by left.
Qed.

Lemma session_ops_need_who_witness :
  AccountManager_pwd (Sim.with_zero (Some 5)) = Ok "/"
  ∧ set_encrypt_key None None (Sim.with_zero (Some 9))
    = Raise (AssertionError NoAccount).
Proof.
  split.
  - destruct (session_ops_need_who None None (Sim.with_zero (Some 5)))
      as [H _].
    destruct (H (Account_new (Sim.current_user 5)) eq_refl) as [Hpwd _].
    exact Hpwd.
  - destruct (session_ops_need_who None None (Sim.with_zero (Some 9)))
      as [_ H].
    destruct (H eq_refl) as [(Ht & _)|(_ & _ & Hset)];
      [discriminate Ht | exact Hset].
Defined.

Section MoreRegistry.
Context {P : Platform}.

(** With a non-zero active identifier that is registered, `cd` replaces the
    `pwd` of the active account by `join_path(pwd, remotedir)` and nothing
    else; `pwd` then returns the new directory, and a second `cd` joins onto
    it. *)
Theorem cd_changes_pwd_only remotedir am u a :
  _who am = Some u → u ≠ 0 → _accounts am !! u = Some a →
  ∃ am', cd remotedir am = Ok am'
    ∧ _accounts am' !! u
      = Some {| user := user a; pwd := join_path (pwd a) remotedir;
                encrypt_key := encrypt_key a; salt := salt a |}
    ∧ (∀ j, j ≠ u → _accounts am' !! j = _accounts am !! j)
    ∧ _who am' = _who am ∧ _data_path am' = _data_path am
    ∧ AccountManager_pwd am' = Ok (join_path (pwd a) remotedir)
    ∧ ∀ d, ∃ am2, cd d am' = Ok am2
        ∧ AccountManager_pwd am2
          = Ok (join_path (join_path (pwd a) remotedir) d).
Proof.
  intros Hw Hn Ha.
  assert (∀ d am0 a0, _who am0 = Some u → _accounts am0 !! u = Some a0 →
            cd d am0
            = Ok (set_accounts am0
                    (<[u := replace_pwd a0 (join_path (pwd a0) d)]>
                       (_accounts am0)))) as Hcd.
  { intros d am0 a0 Hw0 Ha0. unfold cd.
    rewrite Hw0, truthy_int_nonzero by done. simpl. by rewrite Ha0. }
  assert (∀ am0 a0, _who am0 = Some u → _accounts am0 !! u = Some a0 →
            AccountManager_pwd am0 = Ok (pwd a0)) as Hpwd.
  { intros am0 a0 Hw0 Ha0. unfold AccountManager_pwd.
    rewrite Hw0, truthy_int_nonzero by done. simpl. by rewrite Ha0. }
  set (a1 := replace_pwd a (join_path (pwd a) remotedir)).
  set (am1 := set_accounts am (<[u := a1]> (_accounts am))).
  assert (_accounts am1 !! u = Some a1) as Ha1 by apply lookup_insert_eq.
  exists am1. split; [by apply Hcd|]. split_and!; try done.
  - intros j Hj. by apply lookup_insert_ne.
  - by rewrite (Hpwd am1 a1).
  - intros d.
    set (a2 := replace_pwd a1 (join_path (pwd a1) d)).
    exists (set_accounts am1 (<[u := a2]> (_accounts am1))). split.
    + by apply Hcd.
    + rewrite (Hpwd _ a2); [done | done | apply lookup_insert_eq].
Qed.

(** The identifier 0 reads as an omitted identifier: `who(0)` is `who()`
    and `update(0)` is `update()`; and when 0 is the active identifier,
    `who()` returns nothing and `update()` does nothing. *)
Theorem identifier_zero_reads_as_omitted am w :
  who (Some 0) am = who None am
  ∧ update (Some 0) am w = update None am w
  ∧ (_who am = Some 0 →
       who None am = None ∧ update None am w = (Ok am, w)).
Proof.
  split; [reflexivity|]. split; [reflexivity|].
  intros Hw. unfold who, update. rewrite or_int_omitted, Hw. done.
Qed.

Lemma session_preserved_refl am : session_preserved am am.
Proof. split; [done|]. intros k. by destruct (_accounts am !! k). Qed.

Lemma session_preserved_trans am1 am2 am3 :
  session_preserved am1 am2 → session_preserved am2 am3 →
  session_preserved am1 am3.
Proof.
  intros [Hw1 H1] [Hw2 H2]. split; [congruence|].
  intros k. specialize (H1 k). specialize (H2 k).
  destruct (_accounts am1 !! k), (_accounts am2 !! k), (_accounts am3 !! k);
    try done.
  destruct H1 as (? & ? & ?), H2 as (? & ? & ?). split_and!; congruence.
Qed.

Lemma session_preserved_replace_user am t a u :
  _accounts am !! t = Some a →
  session_preserved am
    (set_accounts am (<[t := replace_user a u]> (_accounts am))).
Proof.
  intros Ha. split; [done|]. intros k. simpl.
  destruct (decide (t = k)) as [<-|Hk].
  - by rewrite lookup_insert_eq, Ha.
  - rewrite lookup_insert_ne by done. by destruct (_accounts am !! k).
Qed.

Lemma session_preserved_dom am am' :
  session_preserved am am' → dom (_accounts am') = dom (_accounts am).
Proof.
  intros [_ H]. apply set_eq. intros k. rewrite !elem_of_dom.
  specialize (H k).
  destruct (_accounts am !! k), (_accounts am' !! k); try done;
    split; intros [? ?]; by eauto.
Qed.

(** What `update` does to the world, whether it returns or raises: the
    file system and the console are untouched and at most one request is
    sent. *)
Lemma update_world uid am w r w' :
  update uid am w = (r, w') →
  w_fs w' = w_fs w ∧ w_console w' = w_console w
  ∧ (w_requests w' = w_requests w ∨ ∃ api, w_requests w' = api :: w_requests w).
Proof.
  unfold update.
  destruct (truthy_int (or_int uid (_who am))); [|intros [= <- <-]; eauto].
  destruct (dict_get _ _) as [a|]; [|intros [= <- <-]; eauto].
  unfold bind, liftR, user_info, ret.
  destruct (pcsapi a) as [api|e]; [|intros [= <- <-]; eauto].
  destruct (request_user_info api (w_net w)) as [[u|e] n];
    intros [= <- <-]; simpl; eauto.
Qed.

Lemma update_session uid am w am' w' :
  update uid am w = (Ok am', w') →
  session_preserved am am' ∧ _data_path am' = _data_path am.
Proof.
  intros [[-> ->]|(t & a & api & u & _ & Ha & _ & _ & _ & ->)]%update_Ok.
  - split; [apply session_preserved_refl | done].
  - split; [by apply session_preserved_replace_user | done].
Qed.

(** `update` never adds or removes a key and never touches the session
    fields: whatever identifier it is given (0 included), when it returns,
    every account has the `pwd`, `encrypt_key` and `salt` it had, the same
    keys are registered, and the active identifier and the data path are
    unchanged.  Whether it returns or raises, it sends at most one request
    and leaves the file system and the console alone. *)
Theorem update_keeps_sessions uid am w r w' :
  update uid am w = (r, w') →
  w_fs w' = w_fs w ∧ w_console w' = w_console w
  ∧ (w_requests w' = w_requests w ∨ ∃ api, w_requests w' = api :: w_requests w)
  ∧ ∀ am', r = Ok am' →
      session_preserved am am'
      ∧ dom (_accounts am') = dom (_accounts am)
      ∧ _data_path am' = _data_path am.
Proof.
  intros Hup. destruct (update_world _ _ _ _ _ Hup) as (Hfs & Hc & Hr).
  split_and!; try done. intros am' ->.
  destruct (update_session _ _ _ _ _ Hup) as [Hs Hd].
  split_and!; try done. by apply session_preserved_dom.
Qed.

(** `from_bduss` sends exactly one request, with a handle that carries the
    bduss and the cookies and nothing else; when the service answers, the
    account wraps the answer with `pwd` "/" and no encryption settings, and
    when the request fails the exception propagates. *)
Theorem from_bduss_one_request bduss cookies w r w' :
  from_bduss bduss cookies w = (r, w') →
  let api := {| api_bduss := bduss; api_stoken := None; api_ptoken := None;
                api_cookies := cookies; api_user_id := None |} in
  w_requests w' = api :: w_requests w
  ∧ w_fs w' = w_fs w ∧ w_console w' = w_console w
  ∧ (∀ a, r = Ok a →
       request_user_info api (w_net w) = (Ok (user a), w_net w')
       ∧ pwd a = "/" ∧ encrypt_key a = None ∧ salt a = None)
  ∧ (∀ e, r = Raise e →
       request_user_info api (w_net w) = (Raise e, w_net w')).
Proof.
  intros H api. unfold from_bduss, bind, user_info, ret in H. fold api in H.
  destruct (request_user_info api (w_net w)) as [[u|e] n];
    injection H as <- <-; simpl; split_and!; try done.
  - by intros a [= <-].
  - by intros e' [= <-].
Qed.

End MoreRegistry.

(* --------------------------------------------------------------------- *)
(* 9.3 save and the compatibility pass                                     *)
(* --------------------------------------------------------------------- *)

Section MorePersistence.
Context {P : Platform}.

(** Without a usable path, neither given nor stored, `save` raises
    "No data path" before touching anything; and an empty string given as
    path is passed over for the stored one. *)
Theorem save_without_path_raises data_path am w :
  (truthy_path data_path = false → truthy_path (_data_path am) = false →
     save data_path am w = (Raise (AssertionError NoDataPath), w))
  ∧ save (Some "") am w = save None am w.
Proof.
  split; [|reflexivity].
  intros Hd Hs. unfold save, or_path. rewrite Hd, Hs. reflexivity.
Qed.

(** A `save` that returns has written the pickle of the manager to the
    expansion of the given path, or of the stored one when no true path is
    given: the file reads back and unpickles to the manager that was saved.
    It has sent no request and printed nothing. *)
Theorem save_reads_back `{!PlatformLaws P} data_path am w w' :
  save data_path am w = (Ok tt, w') →
  ∃ q p' b,
    (if truthy_path data_path then data_path else _data_path am) = Some q
    ∧ Path_expanduser q = Ok p'
    ∧ read_file p' (w_fs w') = Ok b
    ∧ pickle_loads b = Ok am
    ∧ w_net w' = w_net w
    ∧ w_requests w' = w_requests w
    ∧ w_console w' = w_console w.
Proof.
  intros Hsave.
  destruct (save_frame _ _ _ _ _ Hsave) as (Hn & Hr & Hc).
  apply save_then_read in Hsave as (q & p' & b & Hq & _ & Hp & Hb & Hl).
  exists q, p', b. split_and!; done.
Qed.

Lemma session_preserved_backfill am fs :
  session_preserved am (backfill am fs).
Proof.
  destruct (backfill_fields am fs) as [Hacc Hwho].
  split; [done|]. intros k. rewrite Hacc.
  by destruct (_accounts am !! k).
Qed.

(** The loop of the compatibility pass keeps every session and the data
    path, leaves the file system alone and sends at most one request per
    key. *)
Lemma compat_loop_sessions keys am w am' w' :
  compat_loop keys am w = (Ok am', w') →
  session_preserved am am' ∧ _data_path am' = _data_path am
  ∧ w_fs w' = w_fs w
  ∧ (length (w_requests w') ≤ length (w_requests w) + length keys)%nat.
Proof.
  revert am w. induction keys as [|j keys IH]; intros am w H.
  - injection H as <- <-. split_and!; [apply session_preserved_refl|done..|].
    simpl. lia.
  - destruct (_accounts am !! j) as [a|] eqn:Ha;
      [destruct (legacy a) eqn:Hl|].
    + rewrite (compat_loop_legacy j keys am a) in H by done.
      destruct (update (Some j) am (printed (update_notice j) w))
        as [[am1|e] w1] eqn:Hup; [|discriminate].
      destruct (update_session _ _ _ _ _ Hup) as [Hs1 Hd1].
      destruct (update_world _ _ _ _ _ Hup) as (Hfs1 & _ & Hr1).
      destruct (IH _ _ H) as (Hs & Hd & Hfs & Hr).
      split_and!.
      * by eapply session_preserved_trans.
      * congruence.
      * by rewrite Hfs, Hfs1.
      * simpl in *. destruct Hr1 as [Hr1|[api Hr1]]; rewrite Hr1 in Hr;
          simpl in Hr; lia.
    + rewrite compat_loop_skip in H
        by (intros a0; rewrite Ha; by intros [= <-]).
      destruct (IH _ _ H) as (Hs & Hd & Hfs & Hr).
      split_and!; try done. simpl. lia.
    + rewrite compat_loop_skip in H by (intros a0; by rewrite Ha).
      destruct (IH _ _ H) as (Hs & Hd & Hfs & Hr).
      split_and!; try done. simpl. lia.
Qed.

(** A compatibility pass that returns went through the loop, the backfill
    and a `save` that returned. *)
Lemma compat_Ok am w am' w' :
  _compat_v0_5_9 am w = (Ok am', w') →
  ∃ am1 w1,
    compat_loop (map_to_list (_accounts am)).*1 am w = (Ok am1, w1)
    ∧ am' = backfill am1 (w_fs w1)
    ∧ save None am' w1 = (Ok tt, w').
Proof.
  intros H.
  destruct (compat_loop (map_to_list (_accounts am)).*1 am w)
    as [[am1|e] w1] eqn:Hloop.
  - rewrite (compat_after_loop am w am1 w1 Hloop) in H.
    destruct (save None (backfill am1 (w_fs w1)) w1) as [[[]|e] w2] eqn:Hs;
      [|discriminate].
    injection H as <- <-. by exists am1, w1.
  - rewrite (compat_loop_raised am w e w1 Hloop) in H. discriminate.
Qed.

(** What a compatibility pass that returns has kept. *)
Lemma compat_Ok_sessions am w am' w' :
  _compat_v0_5_9 am w = (Ok am', w') →
  session_preserved am am'
  ∧ dom (_accounts am') = dom (_accounts am)
  ∧ truthy_path (_data_path am') = true
  ∧ (_data_path am' = _data_path am
     ∨ _data_path am' = Some ACCOUNT_DATA_PATH)
  ∧ (length (w_requests w')
     ≤ length (w_requests w) + size (_accounts am))%nat.
Proof.
  intros (am1 & w1 & Hloop & -> & Hsave)%compat_Ok.
  destruct (compat_loop_sessions _ _ _ _ _ Hloop) as (Hs & Hd & Hfs & Hr).
  assert (session_preserved am (backfill am1 (w_fs w1))) as Hs'.
  { eapply session_preserved_trans; [exact Hs|].
    apply session_preserved_backfill. }
  split_and!.
  - exact Hs'.
  - by apply session_preserved_dom.
  - apply save_Ok in Hsave as (q & p' & fs1 & Hq & Ht & _).
    unfold or_path in Hq. simpl in Hq. by rewrite Hq.
  - rewrite backfill_data_path, Hd.
    destruct (_data_path am) as [q|]; [|by right].
    destruct (_ && _); [by left | by right].
  - destruct (save_frame _ _ _ _ _ Hsave) as (_ & -> & _).
    by rewrite length_fmap, length_map_to_list in Hr.
Qed.

(** Whatever the service answers, a compatibility pass that returns has
    kept every session: the same keys are registered, every account has
    the `pwd`, `encrypt_key` and `salt` it had, and the active identifier is
    unchanged.  The data path of the result is a true path, the stored one
    or `ACCOUNT_DATA_PATH`, and the pass has sent at most one request per
    account. *)
Theorem compat_keeps_sessions am w am' w' :
  _compat_v0_5_9 am w = (Ok am', w') →
  session_preserved am am'
  ∧ dom (_accounts am') = dom (_accounts am)
  ∧ truthy_path (_data_path am') = true
  ∧ (_data_path am' = _data_path am
     ∨ _data_path am' = Some ACCOUNT_DATA_PATH)
  ∧ (length (w_requests w')
     ≤ length (w_requests w) + size (_accounts am))%nat.
Proof. apply compat_Ok_sessions. Qed.

(** On a manager with no legacy-shaped account the compatibility pass sends
    no request and prints nothing, and still saves: its outcome and its
    final world are those of `save` on the backfilled manager. *)
Theorem compat_without_legacy am w r w' :
  (∀ j a, _accounts am !! j = Some a → legacy a = false) →
  _compat_v0_5_9 am w = (r, w') →
  w_requests w' = w_requests w ∧ w_console w' = w_console w
  ∧ ∃ r', save None (backfill am (w_fs w)) w = (r', w')
      ∧ match r' with
        | Ok _ => r = Ok (backfill am (w_fs w))
        | Raise e => r = Raise e
        end.
Proof.
  intros Hcur H.
  rewrite (compat_after_loop am w am w) in H
    by (apply compat_loop_current; intros j a _; apply Hcur).
  destruct (save None (backfill am (w_fs w)) w) as [r' w2] eqn:Hsave.
  destruct (save_frame _ _ _ _ _ Hsave) as (_ & Hr & Hc).
  destruct r' as [[]|e]; injection H as <- <-;
    (split_and!; [done | done | by eexists]).
Qed.

Lemma count_legacy_ext am am' keys :
  (∀ k, k ∈ keys → _accounts am' !! k = _accounts am !! k) →
  count_legacy am' keys = count_legacy am keys.
Proof.
  induction keys as [|j keys IH]; intros Hext; [done|].
  simpl. assert (legacy_at am' j = legacy_at am j) as ->.
  { unfold legacy_at. by rewrite Hext by (by left). }
  rewrite IH; [done|]. intros k Hk. apply Hext. by right.
Qed.

(** The loop over distinct keys, when every legacy-shaped account among
    them has a non-zero identifier and auth material and the service, kept
    in states `online`, answers every request with a current-shaped record:
    each legacy-shaped account is refreshed once and the others are left as
    they are. *)
Lemma compat_loop_all (online : Net → Prop) keys am w :
  NoDup keys →
  (∀ k a, k ∈ keys → _accounts am !! k = Some a → legacy a = true →
          k ≠ 0 ∧ is_Some (auth (user a))) →
  (∀ api n, online n →
     ∃ u n', request_user_info api n = (Ok u, n') ∧ online n'
             ∧ isinstance_dict (products u) = false) →
  online (w_net w) →
  ∃ am1 w1,
    compat_loop keys am w = (Ok am1, w1)
    ∧ online (w_net w1)
    ∧ (∀ k, k ∉ keys → _accounts am1 !! k = _accounts am !! k)
    ∧ (∀ k a1, k ∈ keys → _accounts am1 !! k = Some a1 → legacy a1 = false)
    ∧ (∀ k a, _accounts am !! k = Some a → legacy a = false →
              _accounts am1 !! k = Some a)
    ∧ length (w_requests w1)
      = (length (w_requests w) + count_legacy am keys)%nat
    ∧ length (w_console w1)
      = (length (w_console w) + count_legacy am keys)%nat.
Proof.
  intros Hnd Hleg Hsvc. revert am w Hleg.
  induction keys as [|j keys IH]; intros am w Hleg Hon.
  { exists am, w. simpl.
    split_and!; [done | done | done | | done | lia | lia].
    intros k a1 Hk. by apply elem_of_nil in Hk. }
  apply NoDup_cons in Hnd as [Hj Hnd].
  assert (legacy_at am j
          = match _accounts am !! j with
            | Some a => legacy a
            | None => false
            end) as Hlj by reflexivity.
  destruct (_accounts am !! j) as [a|] eqn:Ha;
    [destruct (legacy a) eqn:Hl|].
  - destruct (Hleg j a) as [Hj0 [au Hau]]; [by left|done|done|].
    assert (∃ api, pcsapi a = Ok api) as [api Hapi].
    { unfold pcsapi. rewrite Hau. simpl. eauto. }
    destruct (Hsvc api (w_net (printed (update_notice j) w)) Hon)
      as (u & n' & Hreq & Hon' & Hu).
    simpl in Hreq.
    set (am0 := set_accounts am (<[j := replace_user a u]> (_accounts am))).
    set (w0 := requested api n' (printed (update_notice j) w)).
    assert (∀ k, k ≠ j → _accounts am0 !! k = _accounts am !! k) as Hne.
    { intros k Hk. simpl. by apply lookup_insert_ne. }
    destruct (IH Hnd am0 w0) as (am1 & w1 & Hloop & Hon1 & Hout & Hin & Hcur & Hr & Hc).
    { intros k a' Hk. rewrite Hne by (intros ->; done).
      intros Ha' Hl'. apply (Hleg k a'); [by right|done..]. }
    { exact Hon'. }
    exists am1, w1. split_and!.
    + rewrite (compat_loop_legacy j keys am a) by done.
      rewrite (update_registered j am a api) by done.
      simpl. by rewrite Hreq.
    + exact Hon1.
    + intros k Hk. apply not_elem_of_cons in Hk as [Hkj Hk].
      by rewrite Hout, Hne.
    + intros k a1 [->|Hk]%elem_of_cons; [|by apply Hin].
      rewrite Hout by done. simpl. rewrite lookup_insert_eq.
      by intros [= <-].
    + intros k a' Ha' Hl'. apply Hcur; [|done].
      rewrite Hne; [done|]. intros ->. congruence.
    + rewrite Hr. simpl. rewrite Hlj.
      rewrite (count_legacy_ext am am0)
        by (intros k Hk; apply Hne; by intros ->).
      lia.
    + rewrite Hc. simpl. rewrite Hlj.
      rewrite (count_legacy_ext am am0)
        by (intros k Hk; apply Hne; by intros ->).
      lia.
  - destruct (IH Hnd am w) as (am1 & w1 & Hloop & Hon1 & Hout & Hin & Hcur & Hr & Hc).
    { intros k a' Hk. apply Hleg. by right. }
    { exact Hon. }
    exists am1, w1. split_and!; try done.
    + by rewrite compat_loop_skip
        by (intros a0; rewrite Ha; by intros [= <-]).
    + intros k Hk. apply not_elem_of_cons in Hk as [_ Hk]. by apply Hout.
    + intros k a1 [->|Hk]%elem_of_cons; [|by apply Hin].
      rewrite Hout, Ha by done. by intros [= <-].
    + rewrite Hr. simpl. by rewrite Hlj.
    + rewrite Hc. simpl. by rewrite Hlj.
  - destruct (IH Hnd am w) as (am1 & w1 & Hloop & Hon1 & Hout & Hin & Hcur & Hr & Hc).
    { intros k a' Hk. apply Hleg. by right. }
    { exact Hon. }
    exists am1, w1. split_and!; try done.
    + by rewrite compat_loop_skip by (intros a0; by rewrite Ha).
    + intros k Hk. apply not_elem_of_cons in Hk as [_ Hk]. by apply Hout.
    + intros k a1 [->|Hk]%elem_of_cons; [|by apply Hin].
      by rewrite Hout, Ha.
    + rewrite Hr. simpl. by rewrite Hlj.
    + rewrite Hc. simpl. by rewrite Hlj.
Qed.

(** When every legacy-shaped account has a non-zero identifier and auth
    material and the service, kept in states `online`, answers every
    request with a current-shaped record, the loop of the compatibility
    pass leaves no legacy-shaped account: it sends one request and prints
    one notice per legacy-shaped account, keeps every session, leaves the
    current-shaped accounts as they are, and the pass then saves the
    backfilled result. *)
Theorem compat_refreshes_every_legacy (online : Net → Prop) am w :
  (∀ k a, _accounts am !! k = Some a → legacy a = true →
          k ≠ 0 ∧ is_Some (auth (user a))) →
  (∀ api n, online n →
     ∃ u n', request_user_info api n = (Ok u, n') ∧ online n'
             ∧ isinstance_dict (products u) = false) →
  online (w_net w) →
  ∃ am1 w1,
    compat_loop (map_to_list (_accounts am)).*1 am w = (Ok am1, w1)
    ∧ (∀ k a1, _accounts am1 !! k = Some a1 → legacy a1 = false)
    ∧ session_preserved am am1
    ∧ (∀ k a, _accounts am !! k = Some a → legacy a = false →
              _accounts am1 !! k = Some a)
    ∧ length (w_requests w1)
      = (length (w_requests w)
         + count_legacy am (map_to_list (_accounts am)).*1)%nat
    ∧ length (w_console w1)
      = (length (w_console w)
         + count_legacy am (map_to_list (_accounts am)).*1)%nat
    ∧ _compat_v0_5_9 am w
      = match save None (backfill am1 (w_fs w1)) w1 with
        | (Ok _, w2) => (Ok (backfill am1 (w_fs w1)), w2)
        | (Raise e, w2) => (Raise e, w2)
        end.
Proof.
  intros Hleg Hsvc Hon.
  destruct (compat_loop_all online (map_to_list (_accounts am)).*1 am w)
    as (am1 & w1 & Hloop & _ & Hout & Hin & Hcur & Hr & Hc); try done.
  { apply NoDup_fst_map_to_list. }
  { intros k a _. apply Hleg. }
  destruct (compat_loop_sessions _ _ _ _ _ Hloop) as (Hs & _).
  exists am1, w1. split_and!; try done.
  - intros k a1 Ha1.
    destruct (_accounts am !! k) as [a|] eqn:Ha.
    + apply (Hin k); [|done]. apply list_elem_of_fmap. exists (k, a).
      split; [done|]. by apply elem_of_map_to_list.
    + destruct Hs as [_ Hs]. specialize (Hs k). by rewrite Ha, Ha1 in Hs.
  - by apply compat_after_loop.
Qed.

(** When `load_data` has read and unpickled a manager, what it returns is
    either a new manager bound to the expanded path (the compatibility pass
    raised) or the result of the pass, which has the sessions of the stored
    manager and a true data path: `load_data` never returns an account that
    was not stored, and never loses the `pwd`, `encrypt_key` or `salt` of
    one it returns. *)
Theorem load_data_keeps_stored_sessions p p' w b am am' w' :
  Path_expanduser p = Ok p' → read_file p' (w_fs w) = Ok b →
  pickle_loads b = Ok am →
  load_data p w = (Ok am', w') →
  am' = AccountManager_new (Some p')
  ∨ (_compat_v0_5_9 am w = (Ok am', w')
     ∧ session_preserved am am'
     ∧ truthy_path (_data_path am') = true).
Proof.
  intros Hp Hr Hb H.
  rewrite (load_data_loaded p p' w b am) in H by done.
  unfold _compat_account_manager in H.
  destruct (_compat_v0_5_9 am w) as [[am2|e] w2] eqn:Hcompat;
    injection H as <- <-; [right | by left].
  destruct (compat_Ok_sessions _ _ _ _ Hcompat) as (Hs & _ & Ht & _).
  done.
Qed.

End MorePersistence.

(* --------------------------------------------------------------------- *)
(* 9.4 Runs on the simulated platform                                      *)
(* --------------------------------------------------------------------- *)

Lemma accounts_lists_registered_witness :
  Account_new (Sim.current_user 5) ∈ accounts (Sim.with_zero None).
Proof.
  destruct (accounts_lists_registered (Sim.with_zero None)) as [H _].
  apply H. exists 5. reflexivity.
Defined.

Lemma cd_changes_pwd_only_witness :
  ∃ am', cd (P:=Sim.platform) "docs" (Sim.with_zero (Some 5)) = Ok am'
    ∧ AccountManager_pwd am' = Ok "/docs"
    ∧ _accounts am' !! 0 = Some (Sim.an_account (Sim.current_user 0)).
Proof.
  destruct (cd_changes_pwd_only (P:=Sim.platform) "docs"
              (Sim.with_zero (Some 5)) 5 (Account_new (Sim.current_user 5))
              eq_refl ltac:(lia) eq_refl)
    as (am' & Hcd & _ & Hothers & _ & _ & Hpwd & _).
  exists am'. split; [exact Hcd|]. split; [exact Hpwd|].
  rewrite Hothers by lia. reflexivity.
Defined.

Lemma identifier_zero_reads_as_omitted_witness :
  who None (Sim.with_zero (Some 0)) = None
  ∧ update (P:=Sim.platform) None (Sim.with_zero (Some 0))
      (Sim.world Sim.empty_disk true)
    = (Ok (Sim.with_zero (Some 0)), Sim.world Sim.empty_disk true).
Proof.
  destruct (identifier_zero_reads_as_omitted (P:=Sim.platform)
              (Sim.with_zero (Some 0)) (Sim.world Sim.empty_disk true))
    as (_ & _ & H).
  apply H. reflexivity.
Defined.

Lemma update_keeps_sessions_witness :
  let w := Sim.world Sim.empty_disk true in
  update (P:=Sim.platform) None Sim.legacy_manager w
  = (Ok Sim.refreshed_manager, requested (P:=Sim.platform) (Sim.handle 7) true w)
  ∧ session_preserved Sim.legacy_manager Sim.refreshed_manager
  ∧ dom (_accounts Sim.refreshed_manager) = dom (_accounts Sim.legacy_manager).
Proof.
  intros w.
  assert (update (P:=Sim.platform) None Sim.legacy_manager w
          = (Ok Sim.refreshed_manager,
             requested (P:=Sim.platform) (Sim.handle 7) true w)) as Hup
    by reflexivity.
  destruct (update_keeps_sessions (P:=Sim.platform) _ _ _ _ _ Hup)
    as (_ & _ & _ & H).
  destruct (H Sim.refreshed_manager eq_refl) as (Hs & Hd & _).
  split; [exact Hup|]. split; [exact Hs | exact Hd].
Defined.

Lemma from_bduss_one_request_witness :
  let w := Sim.world Sim.empty_disk false in
  let api := {| api_bduss := "BDUSS"; api_stoken := None; api_ptoken := None;
                api_cookies := []; api_user_id := None |} in
  from_bduss (P:=Sim.platform) "BDUSS" [] w
  = (Raise (NetworkError "ConnectionError"),
     requested (P:=Sim.platform) api false w)
  ∧ w_requests (requested (P:=Sim.platform) api false w) = [api].
Proof.
  intros w api.
  assert (from_bduss (P:=Sim.platform) "BDUSS" [] w
          = (Raise (NetworkError "ConnectionError"),
             requested (P:=Sim.platform) api false w)) as Hfrom
    by reflexivity.
  destruct (from_bduss_one_request (P:=Sim.platform) _ _ _ _ _ Hfrom)
    as (Hreq & _).
  split; [exact Hfrom | exact Hreq].
Defined.

Lemma save_without_path_raises_witness :
  save (P:=Sim.platform) (Some "") (AccountManager_new None)
    (Sim.world Sim.empty_disk true)
  = (Raise (AssertionError NoDataPath), Sim.world Sim.empty_disk true).
Proof.
  destruct (save_without_path_raises (P:=Sim.platform) (Some "")
              (AccountManager_new None) (Sim.world Sim.empty_disk true))
    as [H _].
  apply H; reflexivity.
Defined.

Lemma save_reads_back_witness :
  let w := Sim.world Sim.empty_disk true in
  let w' := snd (save (P:=Sim.platform) (Some "~/accounts.pk")
                   Sim.legacy_manager w) in
  save (P:=Sim.platform) (Some "~/accounts.pk") Sim.legacy_manager w
  = (Ok tt, w')
  ∧ ∃ b, Sim.read "/home/user/accounts.pk" (w_fs w') = Ok b
      ∧ Sim.loads b = Ok Sim.legacy_manager.
Proof.
  intros w w'.
  assert (save (P:=Sim.platform) (Some "~/accounts.pk") Sim.legacy_manager w
          = (Ok tt, w')) as Hsave by reflexivity.
  destruct (@save_reads_back Sim.platform Sim_laws _ _ _ _ Hsave)
    as (q & p' & b & Hq & Hp & Hr & Hl & _).
  injection Hq as <-. injection Hp as <-.
  split; [exact Hsave|]. exists b. split; [exact Hr | exact Hl].
Defined.

Lemma compat_keeps_sessions_witness :
  let w := Sim.world (Sim.disk_with Sim.legacy_manager) true in
  let w' := snd (_compat_v0_5_9 (P:=Sim.platform) Sim.legacy_manager w) in
  _compat_v0_5_9 (P:=Sim.platform) Sim.legacy_manager w
  = (Ok Sim.refreshed_manager, w')
  ∧ session_preserved Sim.legacy_manager Sim.refreshed_manager
  ∧ (length (w_requests w') ≤ 1)%nat.
Proof.
  intros w w'.
  assert (_compat_v0_5_9 (P:=Sim.platform) Sim.legacy_manager w
          = (Ok Sim.refreshed_manager, w')) as Hc
    by reflexivity.
  destruct (compat_keeps_sessions (P:=Sim.platform) _ _ _ _ Hc)
    as (Hs & _ & _ & _ & Hr).
  split; [exact Hc|]. split; [exact Hs | exact Hr].
Defined.

Lemma compat_without_legacy_witness :
  let am := Sim.single (Sim.current_user 7) (Some 7) None in
  let w := Sim.world Sim.empty_disk false in
  let r := fst (_compat_v0_5_9 (P:=Sim.platform) am w) in
  let w' := snd (_compat_v0_5_9 (P:=Sim.platform) am w) in
  w_requests w' = [] ∧ w_console w' = []
  ∧ r = Ok (set_data_path am (Some "/home/user/.baidupcs-py/accounts.pk")).
Proof.
  intros am w r w'.
  assert (∀ j a, _accounts am !! j = Some a → legacy a = false) as Hcur.
  { intros j a [_ ->]%Sim_single_lookup. reflexivity. }
  destruct (compat_without_legacy (P:=Sim.platform) am w r w' Hcur
              (surjective_pairing _))
    as (Hr & Hc & _).
  split; [exact Hr|]. split; [exact Hc|]. reflexivity.
Defined.

Lemma compat_refreshes_every_legacy_witness :
  let w := Sim.world Sim.empty_disk true in
  ∃ am1 w1,
    compat_loop (P:=Sim.platform)
      (map_to_list (_accounts Sim.two_legacy)).*1 Sim.two_legacy w
    = (Ok am1, w1)
    ∧ (∀ k a1, _accounts am1 !! k = Some a1 → legacy a1 = false)
    ∧ length (w_requests w1) = 2%nat
    ∧ _accounts am1 !! 5 = Some (Sim.an_account (Sim.current_user 5)).
Proof.
  intros w.
  assert (map_Forall (λ k a, legacy a = true →
                             k ≠ 0 ∧ is_Some (auth (user a)))
            (_accounts Sim.two_legacy)) as HF.
  { apply (bool_decide_unpack _). vm_compute. exact I. }
  destruct (compat_refreshes_every_legacy (P:=Sim.platform)
              (λ n, n = true) Sim.two_legacy w)
    as (am1 & w1 & Hloop & Hcur & _ & Hkeep & Hr & _).
  - intros k a Hk. exact (HF k a Hk).
  - intros api n ->. simpl. unfold Sim.request. eexists _, _.
    split; [reflexivity|]. split; reflexivity.
  - reflexivity.
  - exists am1, w1. split; [exact Hloop|]. split; [exact Hcur|].
    split; [rewrite Hr; reflexivity|].
    apply Hkeep; reflexivity.
Defined.

Lemma load_data_keeps_stored_sessions_witness :
  let w := Sim.world (Sim.disk_with Sim.legacy_manager) true in
  let w' := snd (load_data (P:=Sim.platform) "/data/accounts.pk" w) in
  load_data (P:=Sim.platform) "/data/accounts.pk" w
  = (Ok Sim.refreshed_manager, w')
  ∧ session_preserved Sim.legacy_manager Sim.refreshed_manager.
Proof.
  intros w w'.
  assert (load_data (P:=Sim.platform) "/data/accounts.pk" w
          = (Ok Sim.refreshed_manager, w')) as Hload
    by reflexivity.
  split; [exact Hload|].
  destruct (load_data_keeps_stored_sessions (P:=Sim.platform)
              "/data/accounts.pk" "/data/accounts.pk" w
              (Sim.Pickled Sim.legacy_manager) Sim.legacy_manager
              Sim.refreshed_manager w' eq_refl eq_refl eq_refl Hload)
    as [Hnew|(_ & Hs & _)].
  - discriminate Hnew.
  - exact Hs.
Defined.
